(** * Gale-Shapley matcher ([src/galeshapley.ts]): model and properties

    The TypeScript module has two classes.  [MatchContainer] wraps an item
    together with its current match and a cursor into a candidate list;
    [Matcher] owns one container per profile and per vacancy and runs the
    proposal rounds, the eviction pass and the result collection.

    The containers are mutable objects that are reached through the two arrays
    [wrappedProfiles] and [wrappedVacancies]; the model keeps both arrays in
    the engine state and performs every mutation as an update of the array
    slot, so that aliases ([candidateVacancy], [currentMatch], ...) always
    read the current object.  Array reads that would yield [undefined] and
    then be dereferenced are modelled as a [TypeError]. *)

From Stdlib Require Import ZArith List Bool Lia.
From stdpp Require Import base option list.

Section Galeshapley.

Context {T : Type}.

(** ** class MatchContainer *)

Record MatchContainer : Type := mkMatchContainer {
  obj : T;
  match_ : option nat;          (* match: number | null *)
  currentCandidate : nat;
  candidates : list T
}.

(** constructor(obj, candidates) *)
Definition new_MatchContainer (o : T) (cands : list T) : MatchContainer :=
  {| obj := o; match_ := None; currentCandidate := 0; candidates := cands |}.

(** nextCandidate(): the returned number and the container after the call. *)
Definition nextCandidate (c : MatchContainer) : Z * MatchContainer :=
  if length (candidates c) <=? currentCandidate c then ((-1)%Z, c)
  else
    let output := currentCandidate c in
    (Z.of_nat output,
     {| obj := obj c; match_ := match_ c;
        currentCandidate := currentCandidate c + 1;
        candidates := candidates c |}).

(** [k] successive calls on the same container: the returned numbers in
    call order, and the container afterwards. *)
Fixpoint nextCandidate_calls (k : nat) (c : MatchContainer)
  : list Z * MatchContainer :=
  match k with
  | 0 => ([], c)
  | S k' =>
      let '(out, c1) := nextCandidate c in
      let '(outs, c2) := nextCandidate_calls k' c1 in
      (out :: outs, c2)
  end.

Definition set_match (v : option nat) (c : MatchContainer) : MatchContainer :=
  {| obj := obj c; match_ := v;
     currentCandidate := currentCandidate c; candidates := candidates c |}.

(** ** class Matcher *)

(** [calls] is not a field of the source: it records, in order, the argument
    triples of every invocation of [vacancyPrefersProfile], so that
    statements about whether the predicate is invoked can be made. *)
Record Matcher : Type := mkMatcher {
  wrappedProfiles : list MatchContainer;
  wrappedVacancies : list MatchContainer;
  vacancyPrefersProfile : T -> option T -> T -> bool;
  maxLoopCount : Z;
  done : bool;
  calls : list (T * option T * T)
}.

(** constructor(profiles, vacancies, vacancyPrefersProfile, maxLoopCount) *)
Definition new_Matcher (profiles vacancies : list T)
    (prefers : T -> option T -> T -> bool) (maxLoop : Z) : Matcher :=
  {| wrappedProfiles := map (fun item => new_MatchContainer item vacancies) profiles;
     wrappedVacancies := map (fun item => new_MatchContainer item profiles) vacancies;
     vacancyPrefersProfile := prefers;
     maxLoopCount := maxLoop;
     done := false;
     calls := [] |}.

Definition with_profiles (ps : list MatchContainer) (m : Matcher) : Matcher :=
  {| wrappedProfiles := ps; wrappedVacancies := wrappedVacancies m;
     vacancyPrefersProfile := vacancyPrefersProfile m;
     maxLoopCount := maxLoopCount m; done := done m; calls := calls m |}.

Definition with_vacancies (vs : list MatchContainer) (m : Matcher) : Matcher :=
  {| wrappedProfiles := wrappedProfiles m; wrappedVacancies := vs;
     vacancyPrefersProfile := vacancyPrefersProfile m;
     maxLoopCount := maxLoopCount m; done := done m; calls := calls m |}.

Definition with_done (b : bool) (m : Matcher) : Matcher :=
  {| wrappedProfiles := wrappedProfiles m; wrappedVacancies := wrappedVacancies m;
     vacancyPrefersProfile := vacancyPrefersProfile m;
     maxLoopCount := maxLoopCount m; done := b; calls := calls m |}.

Definition with_call (c : T * option T * T) (m : Matcher) : Matcher :=
  {| wrappedProfiles := wrappedProfiles m; wrappedVacancies := wrappedVacancies m;
     vacancyPrefersProfile := vacancyPrefersProfile m;
     maxLoopCount := maxLoopCount m; done := done m; calls := calls m ++ [c] |}.

(** The container at slot [i] of [wrappedProfiles] after one of its methods
    has mutated it into [p]. *)
Definition put_profile (i : nat) (p : MatchContainer) (m : Matcher) : Matcher :=
  with_profiles (<[i := p]> (wrappedProfiles m)) m.

(** this.wrappedProfiles[i].match = v *)
Definition set_profile_match (i : nat) (v : option nat) (m : Matcher) : Matcher :=
  with_profiles (alter (set_match v) i (wrappedProfiles m)) m.

(** this.wrappedVacancies[i].match = v *)
Definition set_vacancy_match (i : nat) (v : option nat) (m : Matcher) : Matcher :=
  with_vacancies (alter (set_match v) i (wrappedVacancies m)) m.

(** ** Computations on the engine: state plus exceptions

    A method either returns a value or throws; in both cases the mutations
    made so far stay in the engine. *)

Inductive error : Type :=
| MaxLoopCountReached   (* Error("Max loop count reached (infinite loop?)") *)
| TypeError.            (* property access on undefined *)

Inductive outcome (A : Type) : Type :=
| Ret (a : A) (m : Matcher)
| Throw (e : error) (m : Matcher).
Arguments Ret {A} a m.
Arguments Throw {A} e m.

Definition state_of {A} (o : outcome A) : Matcher :=
  match o with Ret _ m => m | Throw _ m => m end.

Definition M (A : Type) : Type := Matcher -> outcome A.

Definition ret {A} (a : A) : M A := fun m => Ret a m.
Definition bind {A B} (c : M A) (k : A -> M B) : M B :=
  fun m => match c m with
           | Ret a m' => k a m'
           | Throw e m' => Throw e m'
           end.

Notation "'let!' x ':=' c 'in' k" := (bind c (fun x => k))
  (at level 10, x name, c at level 100, k at level 200).
Notation "c '>>' k" := (bind c (fun _ => k))
  (at level 80, k at level 200, right associativity).

(** this.wrappedProfiles[i], dereferenced *)
Definition getProfile (i : nat) : M MatchContainer :=
  fun m => match wrappedProfiles m !! i with
           | Some p => Ret p m
           | None => Throw TypeError m
           end.

(** this.wrappedVacancies[i], dereferenced *)
Definition getVacancy (i : nat) : M MatchContainer :=
  fun m => match wrappedVacancies m !! i with
           | Some v => Ret v m
           | None => Throw TypeError m
           end.

(** in-place replacement of the state of profile container [i] *)
Definition putProfile (i : nat) (p : MatchContainer) : M unit :=
  fun m => Ret tt (put_profile i p m).

(** this.wrappedProfiles[i].match = v   (the slot is known to exist) *)
Definition setProfileMatch (i : nat) (v : option nat) : M unit :=
  fun m => Ret tt (set_profile_match i v m).

(** this.wrappedVacancies[i].match = v   (the slot is known to exist) *)
Definition setVacancyMatch (i : nat) (v : option nat) : M unit :=
  fun m => Ret tt (set_vacancy_match i v m).

(** this.done = b *)
Definition setDone (b : bool) : M unit := fun m => Ret tt (with_done b m).

(** this.vacancyPrefersProfile(vacancy, currentMatch, newMatch) *)
Definition callPredicate (vacancy : T) (currentMatch : option T) (newMatch : T)
  : M bool :=
  fun m => Ret (vacancyPrefersProfile m vacancy currentMatch newMatch)
               (with_call (vacancy, currentMatch, newMatch) m).

Definition isNone {A} (o : option A) : bool :=
  match o with None => true | Some _ => false end.

(** The callback of [this.wrappedProfiles.forEach] in [match()], lines
    118-149, for the profile at [profileIndex]. *)
Definition propose (profileIndex : nat) : M unit :=
  let! wrappedProfile0 := getProfile profileIndex in
  let '(candidateVacancyIndex, wrappedProfile) := nextCandidate wrappedProfile0 in
  putProfile profileIndex wrappedProfile >>
  if (candidateVacancyIndex =? -1)%Z then ret tt
  else
    let vi := Z.to_nat candidateVacancyIndex in
    let! candidateVacancy := getVacancy vi in
    (* a stored index outside the profile array gives undefined, whose
       [.obj] is read (and throws) before any further mutation *)
    let! currentMatch :=
      match match_ candidateVacancy with
      | None => ret None
      | Some j => let! p := getProfile j in ret (Some p)
      end in
    (if isNone (match_ candidateVacancy) then setDone false else ret tt) >>
    if isNone (match_ candidateVacancy) && isNone (match_ wrappedProfile) then
      setVacancyMatch vi (Some profileIndex) >>
      setProfileMatch profileIndex (Some vi)
    else
      match currentMatch with
      | None => ret tt
      | Some cm =>
          let! prefers :=
            callPredicate (obj candidateVacancy) (Some (obj cm)) (obj wrappedProfile) in
          if prefers then
            setDone false >>
            match match_ candidateVacancy with
            | Some j => setProfileMatch j None
            | None => ret tt
            end >>
            setVacancyMatch vi (Some profileIndex) >>
            setProfileMatch profileIndex (Some vi)
          else ret tt
      end.

(** The paths through the callback, one constructor per path: the outcome
    of a proposal of profile [i] in state [m]. *)
Inductive propose_spec (i : nat) (m : Matcher) : outcome unit -> Prop :=
| propose_undefined :
    wrappedProfiles m !! i = None ->
    propose_spec i m (Throw TypeError m)
| propose_exhausted p0 :
    wrappedProfiles m !! i = Some p0 ->
    length (candidates p0) <= currentCandidate p0 ->
    propose_spec i m (Ret tt m)
| propose_no_vacancy p0 :
    wrappedProfiles m !! i = Some p0 ->
    currentCandidate p0 < length (candidates p0) ->
    wrappedVacancies m !! currentCandidate p0 = None ->
    propose_spec i m (Throw TypeError (put_profile i (snd (nextCandidate p0)) m))
| propose_accept_free p0 cv :
    wrappedProfiles m !! i = Some p0 ->
    currentCandidate p0 < length (candidates p0) ->
    wrappedVacancies m !! currentCandidate p0 = Some cv ->
    match_ cv = None ->
    match_ p0 = None ->
    propose_spec i m
      (Ret tt (set_profile_match i (Some (currentCandidate p0))
                (set_vacancy_match (currentCandidate p0) (Some i)
                  (with_done false (put_profile i (snd (nextCandidate p0)) m)))))
| propose_ignored_free p0 cv held :
    wrappedProfiles m !! i = Some p0 ->
    currentCandidate p0 < length (candidates p0) ->
    wrappedVacancies m !! currentCandidate p0 = Some cv ->
    match_ cv = None ->
    match_ p0 = Some held ->
    propose_spec i m
      (Ret tt (with_done false (put_profile i (snd (nextCandidate p0)) m)))
| propose_dangling p0 cv j :
    wrappedProfiles m !! i = Some p0 ->
    currentCandidate p0 < length (candidates p0) ->
    wrappedVacancies m !! currentCandidate p0 = Some cv ->
    match_ cv = Some j ->
    wrappedProfiles (put_profile i (snd (nextCandidate p0)) m) !! j = None ->
    propose_spec i m (Throw TypeError (put_profile i (snd (nextCandidate p0)) m))
| propose_replace p0 cv j cm :
    wrappedProfiles m !! i = Some p0 ->
    currentCandidate p0 < length (candidates p0) ->
    wrappedVacancies m !! currentCandidate p0 = Some cv ->
    match_ cv = Some j ->
    wrappedProfiles (put_profile i (snd (nextCandidate p0)) m) !! j = Some cm ->
    vacancyPrefersProfile m (obj cv) (Some (obj cm)) (obj p0) = true ->
    propose_spec i m
      (Ret tt (set_profile_match i (Some (currentCandidate p0))
                (set_vacancy_match (currentCandidate p0) (Some i)
                  (set_profile_match j None
                    (with_done false
                      (with_call (obj cv, Some (obj cm), obj p0)
                        (put_profile i (snd (nextCandidate p0)) m)))))))
| propose_reject p0 cv j cm :
    wrappedProfiles m !! i = Some p0 ->
    currentCandidate p0 < length (candidates p0) ->
    wrappedVacancies m !! currentCandidate p0 = Some cv ->
    match_ cv = Some j ->
    wrappedProfiles (put_profile i (snd (nextCandidate p0)) m) !! j = Some cm ->
    vacancyPrefersProfile m (obj cv) (Some (obj cm)) (obj p0) = false ->
    propose_spec i m
      (Ret tt (with_call (obj cv, Some (obj cm), obj p0)
                (put_profile i (snd (nextCandidate p0)) m))).

(** Array.prototype.forEach / map used for their effects: the callback is run
    for the indices [0 .. length-1] in ascending order. *)
Fixpoint forEach (callback : nat -> M unit) (indices : list nat) : M unit :=
  match indices with
  | [] => ret tt
  | i :: rest => callback i >> forEach callback rest
  end.

(** One iteration of the [while] body, lines 117-149 ([loopCount] apart). *)
Definition round : M unit :=
  setDone true >>
  fun m => forEach propose (seq 0 (length (wrappedProfiles m))) m.

(** The [while] loop of [match()], lines 112-151.  The source loop has no
    bound when [maxLoopCount <= 0]; [fuel] bounds the number of iterations
    the model is willing to run and [None] means that it ran out.  The
    value returned is the final [loopCount]. *)
Fixpoint match_loop (fuel : nat) (loopCount : Z) (m : Matcher)
  : option (outcome Z) :=
  if negb (done m) && ((maxLoopCount m <=? 0)%Z || (loopCount <? maxLoopCount m)%Z)
  then
    match fuel with
    | 0 => None
    | S fuel' =>
        match round m with
        | Ret _ m' => match_loop fuel' (loopCount + 1)%Z m'
        | Throw e m' => Some (Throw e m')
        end
    end
  else Some (Ret loopCount m).

(** The callback of [this.wrappedVacancies.map] in [evictUnmatching()]. *)
Definition evict (vacancyIndex : nat) : M unit :=
  let! vacancy := getVacancy vacancyIndex in
  match match_ vacancy with
  | None => ret tt
  | Some j =>
      let! matchedProfile := getProfile j in
      let currentMatch := Some (obj matchedProfile) in
      let! prefers :=
        callPredicate (obj vacancy) currentMatch (obj matchedProfile) in
      if negb prefers then
        setVacancyMatch vacancyIndex None >>
        setProfileMatch j None
      else ret tt
  end.

(** The paths through the eviction callback for the vacancy at [i]. *)
Inductive evict_spec (i : nat) (m : Matcher) : outcome unit -> Prop :=
| evict_undefined :
    wrappedVacancies m !! i = None ->
    evict_spec i m (Throw TypeError m)
| evict_unmatched v :
    wrappedVacancies m !! i = Some v ->
    match_ v = None ->
    evict_spec i m (Ret tt m)
| evict_dangling v j :
    wrappedVacancies m !! i = Some v ->
    match_ v = Some j ->
    wrappedProfiles m !! j = None ->
    evict_spec i m (Throw TypeError m)
| evict_keep v j mp :
    wrappedVacancies m !! i = Some v ->
    match_ v = Some j ->
    wrappedProfiles m !! j = Some mp ->
    vacancyPrefersProfile m (obj v) (Some (obj mp)) (obj mp) = true ->
    evict_spec i m (Ret tt (with_call (obj v, Some (obj mp), obj mp) m))
| evict_drop v j mp :
    wrappedVacancies m !! i = Some v ->
    match_ v = Some j ->
    wrappedProfiles m !! j = Some mp ->
    vacancyPrefersProfile m (obj v) (Some (obj mp)) (obj mp) = false ->
    evict_spec i m
      (Ret tt (set_profile_match j None
                (set_vacancy_match i None
                  (with_call (obj v, Some (obj mp), obj mp) m)))).

Definition evictUnmatching : M unit :=
  fun m => forEach evict (seq 0 (length (wrappedVacancies m))) m.

(** match() *)
Definition Matcher_match (fuel : nat) (m : Matcher) : option (outcome unit) :=
  match match_loop fuel 0 m with
  | None => None
  | Some (Throw e m') => Some (Throw e m')
  | Some (Ret _ m') =>
      if negb (done m') then Some (Throw MaxLoopCountReached m')
      else Some (evictUnmatching m')
  end.

(** The collection loop of [getMatches()], lines 194-199. *)
Fixpoint collect (indices : list nat) (output : list (T * T))
  : M (list (T * T)) :=
  match indices with
  | [] => ret output
  | i :: rest =>
      let! vacancy := getVacancy i in
      match match_ vacancy with
      | Some j =>
          let! p := getProfile j in
          collect rest (output ++ [(obj vacancy, obj p)])
      | None => collect rest output
      end
  end.

Definition collectMatches : M (list (T * T)) :=
  fun m => collect (seq 0 (length (wrappedVacancies m))) [] m.

(** getMatches() *)
Definition getMatches (fuel : nat) (m : Matcher)
  : option (outcome (list (T * T))) :=
  if negb (done m) then
    match Matcher_match fuel m with
    | None => None
    | Some (Throw e m') => Some (Throw e m')
    | Some (Ret _ m') => Some (collectMatches m')
    end
  else Some (collectMatches m).

(** [k] rounds in a row, whatever the [done] flag says in between. *)
Fixpoint rounds (k : nat) : M unit :=
  match k with
  | 0 => ret tt
  | S k' => round >> rounds k'
  end.

(** ** Observations on states used in the statements *)

(** The match links of both sides, in index order. *)
Definition matches (m : Matcher) : list (option nat) * list (option nat) :=
  (map match_ (wrappedProfiles m), map match_ (wrappedVacancies m)).

Record same_frame (m m' : Matcher) : Prop := {
  frame_prefers : vacancyPrefersProfile m' = vacancyPrefersProfile m;
  frame_maxLoop : maxLoopCount m' = maxLoopCount m;
  frame_pobj : map obj (wrappedProfiles m') = map obj (wrappedProfiles m);
  frame_pcands : map candidates (wrappedProfiles m') = map candidates (wrappedProfiles m);
  frame_vobj : map obj (wrappedVacancies m') = map obj (wrappedVacancies m);
  frame_vcands : map candidates (wrappedVacancies m') = map candidates (wrappedVacancies m);
  frame_vcursor : map currentCandidate (wrappedVacancies m')
                  = map currentCandidate (wrappedVacancies m)
}.

(** The vacancy at slot [i], if matched, is matched to an existing profile
    that the predicate accepts in the self-comparison of the eviction pass. *)
Definition endorsed (m : Matcher) (i : nat) : Prop :=
  forall v j,
    wrappedVacancies m !! i = Some v -> match_ v = Some j ->
    exists p, wrappedProfiles m !! j = Some p
              /\ vacancyPrefersProfile m (obj v) (Some (obj p)) (obj p) = true.

(** Every profile container has the vacancy array as candidates (by length)
    and its cursor is given by [f] at its index. *)
Definition cursors_at (f : nat -> nat) (m : Matcher) : Prop :=
  forall k p, wrappedProfiles m !! k = Some p ->
    length (candidates p) = length (wrappedVacancies m)
    /\ currentCandidate p = f k.

(** Every link stored in a vacancy points into the profile array, and only
    vacancies below slot [b] hold a link. *)
Definition links_below (b : nat) (m : Matcher) : Prop :=
  forall k v j, wrappedVacancies m !! k = Some v -> match_ v = Some j ->
    j < length (wrappedProfiles m) /\ k < b.

(** Between rounds all cursors agree. *)
Definition lockstep (c : nat) (m : Matcher) : Prop :=
  c <= length (wrappedVacancies m)
  /\ cursors_at (fun _ => c) m
  /\ links_below c m.

(** Inside the round that proposes to vacancy [c], after the profiles below
    [i] have proposed. *)
Definition midround (c i : nat) (m : Matcher) : Prop :=
  c < length (wrappedVacancies m)
  /\ cursors_at (fun k => if k <? i then S c else c) m
  /\ links_below (if i =? 0 then c else S c) m
  /\ (0 < i -> done m = false).

(** The bound of a fresh engine stops the loop before its idle round: there
    is a profile, and the bound is positive and at most the number of
    vacancies. *)
Definition bound_too_low (profiles vacancies : list T) (maxLoop : Z) : Prop :=
  profiles <> [] /\ (0 < maxLoop <= Z.of_nat (length vacancies))%Z.

End Galeshapley.

Arguments MatchContainer T : clear implicits.
Arguments Matcher T : clear implicits.
Arguments outcome T A : clear implicits.
Arguments M T A : clear implicits.
Arguments Ret {T A} a m.
Arguments Throw {T A} e m.

(** ** Concrete engines: the scenarios of [test/galeshapley.test.js] and
    the inputs used below *)

(** Items with a "want" and a "have" colour, colours as numbers. *)
Definition item : Type := (nat * nat)%type.
Definition want (i : item) : nat := fst i.
Definition have (i : item) : nat := snd i.

(** currentProfile === null || vacancy.want === newProfile.have *)
Definition prefers_complement (vacancy : item) (currentProfile : option item)
    (newProfile : item) : bool :=
  isNone currentProfile || (want vacancy =? have newProfile).

Definition always_true (v : item) (c : option item) (n : item) : bool := true.

(** What a call produced, without the engine state. *)
Definition result_of {A} (o : option (outcome item A)) : option (A + error) :=
  match o with
  | None => None
  | Some (Ret a _) => Some (inl a)
  | Some (Throw e _) => Some (inr e)
  end.

(** The engine state a call left behind ([dflt] if the model ran out of
    fuel). *)
Definition state_after {A} (dflt : Matcher item) (o : option (outcome item A))
  : Matcher item :=
  match o with
  | Some r => state_of r
  | None => dflt
  end.

(** test "multimatch": red 1, blue 2, yellow 3, green 4, purple 5, teal 6,
    black 7, white 8 *)
Definition multimatch : Matcher item :=
  new_Matcher [(1, 2); (3, 4); (5, 6)] [(2, 1); (4, 3); (7, 8)]
    prefers_complement 10.

(** test "simpleMatch" *)
Definition simpleMatch : Matcher item :=
  new_Matcher [(1, 2)] [(2, 1)] prefers_complement 0.

(** Two vacancies that both want what the second profile has. *)
Definition contested : Matcher item :=
  new_Matcher [(1, 2); (3, 4)] [(4, 1); (4, 3)] prefers_complement 0.

(** One profile, two vacancies, after the first round: the profile holds
    vacancy 0 and its cursor stands at the still unmatched vacancy 1. *)
Definition one_profile_two_vacancies : Matcher item :=
  new_Matcher [(1, 2)] [(2, 1); (9, 9)] prefers_complement 0.
Definition after_first_round : Matcher item :=
  state_of (round one_profile_two_vacancies).

(** One profile, one vacancy, the predicate that always answers true. *)
Definition single_pair (maxLoop : Z) : Matcher item :=
  new_Matcher [(1, 2)] [(2, 1)] always_true maxLoop.

(** ** Further observations on states *)

Section Observations.

Context {T : Type}.

(** Every link held by a profile is answered by the vacancy it names. *)
Definition reciprocated (m : Matcher T) : Prop :=
  forall pi p vi,
    wrappedProfiles m !! pi = Some p -> match_ p = Some vi ->
    exists v, wrappedVacancies m !! vi = Some v /\ match_ v = Some pi.

(** A recorded predicate invocation whose first argument is a vacancy item,
    whose third argument is a profile item and whose second argument is a
    profile item, not null. *)
Definition call_on_items (profiles vacancies : list T)
    (call : T * option T * T) : Prop :=
  In (fst (fst call)) vacancies
  /\ In (snd call) profiles
  /\ exists current, snd (fst call) = Some current /\ In current profiles.

(** Slot by slot, the containers of [after] hold the link they hold in
    [before] or none. *)
Definition only_cleared (before after : list (MatchContainer T)) : Prop :=
  length after = length before
  /\ forall i a, after !! i = Some a ->
       exists b, before !! i = Some b
                 /\ (match_ a = match_ b \/ match_ a = None).

(** Two states that differ at most in the record of predicate
    invocations. *)
Definition same_but_calls (m m' : Matcher T) : Prop :=
  wrappedProfiles m' = wrappedProfiles m
  /\ wrappedVacancies m' = wrappedVacancies m
  /\ vacancyPrefersProfile m' = vacancyPrefersProfile m
  /\ maxLoopCount m' = maxLoopCount m
  /\ done m' = done m.

(** The invocations recorded in [m'] are those recorded in [m] and
    invocations on items of [m]. *)
Definition calls_extend (m m' : Matcher T) : Prop :=
  same_frame m m'
  /\ forall call, In call (calls m') ->
       In call (calls m)
       \/ call_on_items (map obj (wrappedProfiles m))
            (map obj (wrappedVacancies m)) call.

(** The number of candidates the profile container has not proposed to. *)
Definition proposals_left (p : MatchContainer T) : nat :=
  length (candidates p) - currentCandidate p.

(** Predicate invocations made so far plus proposals still to come. *)
Definition work (m : Matcher T) : nat :=
  length (calls m) + sum_list_with proposals_left (wrappedProfiles m).

End Observations.

(** The outcome of a call ([dflt] if the model ran out of fuel). *)
Definition outcome_after {A} (dflt : outcome item A)
    (o : option (outcome item A)) : outcome item A :=
  match o with
  | Some r => r
  | None => dflt
  end.

(** Three profiles and five vacancies. *)
Definition three_by_five (maxLoop : Z) : Matcher item :=
  new_Matcher [(1, 2); (3, 4); (5, 6)] [(2, 1); (4, 3); (7, 8); (4, 9); (6, 5)]
    prefers_complement maxLoop.

(** * Properties *)

Section Properties.

Context {T : Type}.
Implicit Types (p cv : MatchContainer T) (m : Matcher T).

(** ** Record bookkeeping *)

Lemma with_profiles_id m : with_profiles (wrappedProfiles m) m = m.
Proof. by destruct m. Qed.

Lemma put_profile_id i p m :
  wrappedProfiles m !! i = Some p -> put_profile i p m = m.
Proof.
  intros H. unfold put_profile. rewrite list_insert_id by exact H.
  apply with_profiles_id.
Qed.

Lemma nextCandidate_exhausted (c : MatchContainer T) :
  length (candidates c) <= currentCandidate c -> nextCandidate c = ((-1)%Z, c).
Proof.
  intros H. unfold nextCandidate.
  destruct (Nat.leb_spec (length (candidates c)) (currentCandidate c)); [done|lia].
Qed.

Lemma nextCandidate_advance (c : MatchContainer T) :
  currentCandidate c < length (candidates c) ->
  nextCandidate c
    = (Z.of_nat (currentCandidate c),
       {| obj := obj c; match_ := match_ c;
          currentCandidate := currentCandidate c + 1;
          candidates := candidates c |}).
Proof.
  intros H. unfold nextCandidate.
  destruct (Nat.leb_spec (length (candidates c)) (currentCandidate c)); [lia|done].
Qed.

(** Every run of the callback follows one of the paths of [propose_spec]. *)
Lemma propose_specP i m : propose_spec i m (propose i m).
Proof.
  unfold propose, bind at 1, getProfile.
  destruct (wrappedProfiles m !! i) as [p0|] eqn:Hp0; [|by constructor].
  destruct (le_lt_dec (length (candidates p0)) (currentCandidate p0)) as [Hex|Hlt].
  { rewrite nextCandidate_exhausted by exact Hex. unfold bind, putProfile. cbn.
    rewrite put_profile_id by exact Hp0. by econstructor. }
  pose proof (nextCandidate_advance p0 Hlt) as Hnext.
  destruct (nextCandidate p0) as [vi p] eqn:Enext.
  injection Hnext as -> Hp. 
  replace p with (snd (nextCandidate p0)) by (by rewrite Enext).
  assert (Hobj : obj (snd (nextCandidate p0)) = obj p0) by (by rewrite Enext, Hp).
  assert (Hmatch : match_ (snd (nextCandidate p0)) = match_ p0) by (by rewrite Enext, Hp).
  clear Enext Hp p.
  unfold bind at 1, putProfile.
  replace (Z.of_nat (currentCandidate p0) =? -1)%Z with false by (symmetry; lia).
  rewrite Nat2Z.id.
  unfold bind at 1, getVacancy. cbn [put_profile with_profiles wrappedVacancies].
  destruct (wrappedVacancies m !! currentCandidate p0) as [cv|] eqn:Hcv;
    [|by econstructor].
  destruct (match_ cv) as [j|] eqn:Hj.
  - unfold bind at 1. unfold bind at 1. unfold getProfile.
    destruct (wrappedProfiles _ !! j) as [cm|] eqn:Hcm; [|by econstructor].
    unfold ret at 1. cbn [isNone andb]. unfold bind at 1. unfold ret at 1.
    unfold bind at 1, callPredicate. rewrite Hobj.
    destruct (vacancyPrefersProfile _ _ _ _) eqn:Hpref.
    + unfold bind, setDone, setProfileMatch, setVacancyMatch.
      cbn in Hpref. by eapply propose_replace.
    + unfold ret. cbn in Hpref. by eapply propose_reject.
  - unfold bind at 1. unfold ret at 1. cbn [isNone andb].
    unfold bind at 1, setDone. rewrite Hmatch.
    destruct (match_ p0) as [held|] eqn:Hheld; cbn [isNone].
    + unfold ret. by eapply propose_ignored_free.
    + unfold bind, setVacancyMatch, setProfileMatch. by eapply propose_accept_free.
Qed.

(** ** What never changes

    The arrays are never resized, the wrapped items, the candidate lists,
    the cursors of the vacancies, the predicate and the loop bound are never
    written. *)

Lemma map_alter_same {A B} (f : A -> B) (g : A -> A) i (l : list A) :
  (forall x, f (g x) = f x) -> map f (alter g i l) = map f l.
Proof.
  intros Hfg. revert i. induction l as [|x l IH]; intros [|i]; cbn; try done.
  - by rewrite Hfg.
  - f_equal. apply IH.
Qed.

Lemma map_insert_same {A B} (f : A -> B) i x y (l : list A) :
  l !! i = Some x -> f y = f x -> map f (<[i:=y]> l) = map f l.
Proof.
  revert i. induction l as [|z l IH]; intros [|i] Hl Hf; cbn in *; try done.
  - injection Hl as ->. by rewrite Hf.
  - f_equal. by apply IH.
Qed.

Lemma same_frame_refl m : same_frame m m.
Proof. by split. Qed.

Lemma same_frame_trans m1 m2 m3 :
  same_frame m1 m2 -> same_frame m2 m3 -> same_frame m1 m3.
Proof. intros [] []. split; congruence. Qed.

Lemma same_frame_length m m' :
  same_frame m m' ->
  length (wrappedProfiles m') = length (wrappedProfiles m)
  /\ length (wrappedVacancies m') = length (wrappedVacancies m).
Proof.
  intros [_ _ Hp _ Hv _ _]. split.
  - apply (f_equal (@length _)) in Hp. by rewrite !length_map in Hp.
  - apply (f_equal (@length _)) in Hv. by rewrite !length_map in Hv.
Qed.

Lemma frame_with_done b m : same_frame m (with_done b m).
Proof. by split. Qed.

Lemma frame_with_call call m : same_frame m (with_call call m).
Proof. by split. Qed.

Lemma frame_set_profile_match i v m : same_frame m (set_profile_match i v m).
Proof. split; cbn; try done; by apply map_alter_same. Qed.

Lemma frame_set_vacancy_match i v m : same_frame m (set_vacancy_match i v m).
Proof. split; cbn; try done; by apply map_alter_same. Qed.

Lemma nextCandidate_fields (c : MatchContainer T) :
  obj (snd (nextCandidate c)) = obj c
  /\ match_ (snd (nextCandidate c)) = match_ c
  /\ candidates (snd (nextCandidate c)) = candidates c.
Proof. unfold nextCandidate. by destruct (_ <=? _). Qed.

Lemma frame_put_profile i p0 m :
  wrappedProfiles m !! i = Some p0 ->
  same_frame m (put_profile i (snd (nextCandidate p0)) m).
Proof.
  intros H. destruct (nextCandidate_fields p0) as (? & ? & ?).
  split; cbn; try done; by eapply map_insert_same.
Qed.

Lemma matches_put_profile i p0 m :
  wrappedProfiles m !! i = Some p0 ->
  matches (put_profile i (snd (nextCandidate p0)) m) = matches m.
Proof.
  intros H. destruct (nextCandidate_fields p0) as (? & ? & ?).
  unfold matches. cbn. f_equal. by eapply map_insert_same.
Qed.

Ltac frame :=
  repeat first
    [ apply same_frame_refl
    | by eapply frame_put_profile
    | eapply same_frame_trans;
      [| first [ apply frame_with_done | apply frame_with_call
               | apply frame_set_profile_match
               | apply frame_set_vacancy_match ] ] ].

Lemma propose_frame i m : same_frame m (state_of (propose i m)).
Proof. destruct (propose_specP i m); cbn [state_of]; frame. Qed.

Lemma evict_specP i m : evict_spec i m (evict i m).
Proof.
  unfold evict, bind at 1, getVacancy.
  destruct (wrappedVacancies m !! i) as [v|] eqn:Hv; [|by constructor].
  destruct (match_ v) as [j|] eqn:Hj; [|by econstructor].
  unfold bind at 1, getProfile.
  destruct (wrappedProfiles m !! j) as [mp|] eqn:Hmp; [|by econstructor].
  unfold bind at 1, callPredicate.
  destruct (vacancyPrefersProfile _ _ _ _) eqn:Hpref; cbn [negb].
  - by eapply evict_keep.
  - unfold bind, setVacancyMatch, setProfileMatch. by eapply evict_drop.
Qed.

Lemma evict_frame i m : same_frame m (state_of (evict i m)).
Proof. destruct (evict_specP i m); cbn [state_of]; frame. Qed.

(** A property of state pairs that is reflexive, transitive and established
    by every run of the callback holds across the whole loop. *)
Lemma forEach_related (R : Matcher T -> Matcher T -> Prop)
    (callback : nat -> M T unit) (indices : list nat) :
  (forall m, R m m) ->
  (forall m1 m2 m3, R m1 m2 -> R m2 m3 -> R m1 m3) ->
  (forall i m, R m (state_of (callback i m))) ->
  forall m, R m (state_of (forEach callback indices m)).
Proof.
  intros Hrefl Htrans Hcb.
  induction indices as [|i rest IH]; intros m; cbn [forEach].
  - apply Hrefl.
  - unfold bind. pose proof (Hcb i m) as Hi.
    destruct (callback i m) as [[] m1|e m1]; cbn [state_of] in *.
    + eapply Htrans; [exact Hi | apply IH].
    + exact Hi.
Qed.

Lemma round_frame m : same_frame m (state_of (round m)).
Proof.
  unfold round, bind, setDone.
  eapply same_frame_trans; [apply (frame_with_done true)|].
  apply forEach_related;
    eauto using same_frame_refl, same_frame_trans, propose_frame.
Qed.

Lemma evictUnmatching_frame m : same_frame m (state_of (evictUnmatching m)).
Proof.
  unfold evictUnmatching.
  apply forEach_related;
    eauto using same_frame_refl, same_frame_trans, evict_frame.
Qed.

Lemma match_loop_frame fuel : forall loopCount m o,
  match_loop fuel loopCount m = Some o -> same_frame m (state_of o).
Proof.
  induction fuel as [|fuel IH]; intros loopCount m o; cbn [match_loop];
    destruct (negb (done m) && _); try discriminate;
    try (intros [= <-]; apply same_frame_refl).
  pose proof (round_frame m) as Hr.
  destruct (round m) as [[] m1|e m1]; cbn [state_of] in Hr.
  - intros H. eapply same_frame_trans; [exact Hr | eapply IH, H].
  - by intros [= <-].
Qed.

Lemma Matcher_match_frame fuel m o :
  Matcher_match fuel m = Some o -> same_frame m (state_of o).
Proof.
  unfold Matcher_match.
  destruct (match_loop fuel 0 m) as [[lc m1|e m1]|] eqn:Hloop; try discriminate;
    apply match_loop_frame in Hloop; cbn [state_of] in Hloop.
  - destruct (negb (done m1)); intros [= <-]; [done|].
    eapply same_frame_trans; [exact Hloop | apply evictUnmatching_frame].
  - by intros [= <-].
Qed.

(** ** The eviction pass and the collected pairs *)

Lemma lookup_alter_set_match (l : list (MatchContainer T)) i j w x :
  alter (set_match w) i l !! j = Some x ->
  exists y, l !! j = Some y /\ obj x = obj y
            /\ ((i <> j /\ x = y) \/ (i = j /\ match_ x = w)).
Proof.
  rewrite list_lookup_alter. case_decide as Hij.
  - subst j. destruct (l !! i) as [y|]; [|done]. intros [= <-].
    exists y. cbn. auto.
  - intros H. exists x. auto.
Qed.

Lemma lookup_alter_set_match_obj (l : list (MatchContainer T)) i j w y :
  l !! j = Some y ->
  exists x, alter (set_match w) i l !! j = Some x /\ obj x = obj y.
Proof.
  intros H. rewrite list_lookup_alter. case_decide as Hij.
  - subst j. rewrite H. by eexists.
  - by eexists.
Qed.

Lemma evict_endorsed_self k m m' : evict k m = Ret tt m' -> endorsed m' k.
Proof.
  intros He. pose proof (evict_specP k m) as Hs. rewrite He in Hs.
  inversion Hs as [ | v Hv Hm | | v j mp Hv Hm Hmp Hpref
                  | v j mp Hv Hm Hmp Hpref ]; subst; intros v' j' Hv' Hm'.
  - congruence.
  - cbn in Hv'. assert (v' = v) by congruence. subst v'.
    assert (j' = j) by congruence. subst j'. exists mp. by cbn.
  - cbn in Hv'. apply lookup_alter_set_match in Hv' as (y & _ & _ & [[? _]|[_ Hy]]).
    + done.
    + congruence.
Qed.

Lemma evict_endorsed_other i k m :
  endorsed m i -> endorsed (state_of (evict k m)) i.
Proof.
  intros Hend.
  destruct (evict_specP k m) as [ | v Hv Hm | | v j mp Hv Hm Hmp Hpref
                                | v j mp Hv Hm Hmp Hpref ];
    cbn [state_of]; try exact Hend.
  intros v' j' Hv' Hm'. cbn in Hv'.
  apply lookup_alter_set_match in Hv' as (y & Hy & Ho & [[_ ->]|[-> Hmy]]).
  - destruct (Hend _ _ Hy Hm') as (q & Hq & Hpq).
    destruct (lookup_alter_set_match_obj (wrappedProfiles m) j j' None q Hq)
      as (q' & Hq' & Hoq).
    exists q'. cbn. split; [exact Hq'|]. by rewrite Hoq.
  - congruence.
Qed.

Lemma forEach_evict_endorsed indices : forall m m',
  forEach evict indices m = Ret tt m' ->
  forall i, In i indices -> endorsed m' i.
Proof.
  induction indices as [|k rest IH]; intros m m' Hrun i Hin; [done|].
  cbn [forEach] in Hrun. unfold bind in Hrun.
  destruct (evict k m) as [[] m1|e m1] eqn:Hk; [|discriminate].
  destruct Hin as [->|Hin]; [|by eapply IH].
  apply evict_endorsed_self in Hk.
  assert (Hpres : forall a : Matcher T, endorsed a i ->
            endorsed (state_of (forEach evict rest a)) i).
  { apply (forEach_related (fun a b : Matcher T => endorsed a i -> endorsed b i)); auto.
    intros k' a. apply evict_endorsed_other. }
  specialize (Hpres m1 Hk). by rewrite Hrun in Hpres.
Qed.

Lemma collect_pairs indices : forall output m res m',
  collect indices output m = Ret res m' ->
  m' = m
  /\ forall a b, In (a, b) res ->
       In (a, b) output
       \/ exists i v j p, In i indices
            /\ wrappedVacancies m !! i = Some v /\ match_ v = Some j
            /\ wrappedProfiles m !! j = Some p /\ a = obj v /\ b = obj p.
Proof.
  induction indices as [|k rest IH]; intros output m res m'; cbn [collect].
  - unfold ret. intros [= <- <-]. auto.
  - unfold bind at 1, getVacancy.
    destruct (wrappedVacancies m !! k) as [v|] eqn:Hv; [|discriminate].
    destruct (match_ v) as [j|] eqn:Hj.
    + unfold bind, getProfile.
      destruct (wrappedProfiles m !! j) as [p|] eqn:Hp; [|discriminate].
      intros H. apply IH in H as [-> H]. split; [done|].
      intros a b Hab. destruct (H a b Hab) as [Hin|(i & v' & j' & p' & Hi & Hr)].
      * apply in_app_or in Hin as [Hin|[[= <- <-]|[]]]; [by left|].
        right. exists k, v, j, p. cbn. tauto.
      * right. exists i, v', j', p'. cbn. tauto.
    + intros H. apply IH in H as [-> H]. split; [done|].
      intros a b Hab. destruct (H a b Hab) as [Hin|(i & v' & j' & p' & Hi & Hr)].
      * by left.
      * right. exists i, v', j', p'. cbn. tauto.
Qed.

(** C1. When [getMatches], called on an engine that has not run yet
    ([done] is false, as in every freshly built engine), returns a pair list,
    every returned pair [(v, p)] satisfies [predicate(v, p, p) = true]: the
    eviction pass has removed every pairing that fails this self-comparison. *)
Theorem getMatches_pairs_endorsed (fuel : nat) m (out : list (T * T)) m' :
  done m = false ->
  getMatches fuel m = Some (Ret out m') ->
  forall vacancy profile : T,
    In (vacancy, profile) out ->
    vacancyPrefersProfile m vacancy (Some profile) profile = true.
Proof.
  intros Hdone Hget v p Hin. unfold getMatches in Hget. rewrite Hdone in Hget.
  cbn [negb] in Hget.
  destruct (Matcher_match fuel m) as [[[] m2|e m2]|] eqn:Hmatch; try discriminate.
  pose proof (Matcher_match_frame _ _ _ Hmatch) as Hframe. cbn [state_of] in Hframe.
  unfold Matcher_match in Hmatch.
  destruct (match_loop fuel 0 m) as [[lc m1|e m1]|]; try discriminate.
  destruct (negb (done m1)); [discriminate|]. injection Hmatch as Hev.
  pose proof (evictUnmatching_frame m1) as Hf1. rewrite Hev in Hf1.
  cbn [state_of] in Hf1. apply same_frame_length in Hf1 as [_ Hlen].
  injection Hget as Hget. unfold collectMatches in Hget.
  apply collect_pairs in Hget as [-> Hpairs].
  destruct (Hpairs v p Hin) as [[]|(i & cv & j & mp & Hi & Hcv & Hj & Hmp & -> & ->)].
  rewrite Hlen in Hi.
  destruct (forEach_evict_endorsed _ _ _ Hev i Hi cv j Hcv Hj) as (q & Hq & Hpref).
  assert (q = mp) by congruence. subst q.
  by rewrite (frame_prefers _ _ Hframe) in Hpref.
Qed.

(** ** Cursors advance in lockstep *)

Lemma lookup_alter_set_match_fields (l : list (MatchContainer T)) i j w x :
  alter (set_match w) i l !! j = Some x ->
  exists y, l !! j = Some y
            /\ currentCandidate x = currentCandidate y
            /\ candidates x = candidates y.
Proof.
  rewrite list_lookup_alter. case_decide as Hij.
  - subst j. destruct (l !! i) as [y|]; [|done]. intros [= <-]. by exists y.
  - intros H. by exists x.
Qed.

Lemma cursors_at_set_profile_match f a w m :
  cursors_at f m -> cursors_at f (set_profile_match a w m).
Proof.
  intros H k p Hk. cbn in Hk.
  apply lookup_alter_set_match_fields in Hk as (y & Hy & -> & ->).
  exact (H k y Hy).
Qed.

Lemma cursors_at_set_vacancy_match f a w m :
  cursors_at f m -> cursors_at f (set_vacancy_match a w m).
Proof.
  intros H k p Hk. cbn in *. rewrite length_alter. exact (H k p Hk).
Qed.

Lemma cursors_at_put_profile c i p0 m :
  cursors_at (fun k => if k <? i then S c else c) m ->
  wrappedProfiles m !! i = Some p0 ->
  currentCandidate p0 < length (candidates p0) ->
  cursors_at (fun k => if k <? S i then S c else c)
    (put_profile i (snd (nextCandidate p0)) m).
Proof.
  intros H Hi Hlt k p Hk. cbn in Hk.
  destruct (H i p0 Hi) as [Hlen Hcur].
  rewrite Nat.ltb_irrefl in Hcur.
  rewrite list_lookup_insert in Hk. case_decide as Hik.
  - destruct Hik as [<- _]. injection Hk as <-.
    rewrite nextCandidate_advance by exact Hlt. cbn.
    split; [exact Hlen|].
    destruct (Nat.leb_spec i i); lia.
  - destruct (decide (i = k)) as [<-|Hne].
    { exfalso. apply Hik. split; [done|]. by eapply lookup_lt_Some. }
    destruct (H k p Hk) as [Hl Hc]. cbn. split; [exact Hl|].
    rewrite Hc. destruct (Nat.ltb_spec k i), (Nat.leb_spec k i); lia.
Qed.

Lemma links_below_mono b b' m : links_below b m -> b <= b' -> links_below b' m.
Proof. intros H Hle k v j Hk Hj. destruct (H k v j Hk Hj). lia. Qed.

Lemma links_below_set_profile_match b a w m :
  links_below b m -> links_below b (set_profile_match a w m).
Proof.
  intros H k v j Hk Hj. cbn in *. rewrite length_alter. exact (H k v j Hk Hj).
Qed.

Lemma links_below_put_profile b i p m :
  links_below b m -> links_below b (put_profile i p m).
Proof.
  intros H k v j Hk Hj. cbn in *. rewrite length_insert. exact (H k v j Hk Hj).
Qed.

Lemma links_below_set_vacancy_match b a w m :
  links_below b m ->
  (forall j, w = Some j -> j < length (wrappedProfiles m) /\ a < b) ->
  links_below b (set_vacancy_match a w m).
Proof.
  intros H Hw k v j Hk Hj. cbn in *.
  apply lookup_alter_set_match in Hk as (y & Hy & _ & [[_ ->]|[-> Hm]]).
  - exact (H k y j Hy Hj).
  - apply Hw. congruence.
Qed.

Lemma cursors_at_with_done f b m : cursors_at f m -> cursors_at f (with_done b m).
Proof. intros H. exact H. Qed.

Lemma cursors_at_with_call f call m :
  cursors_at f m -> cursors_at f (with_call call m).
Proof. intros H. exact H. Qed.

Lemma links_below_with_done b d m : links_below b m -> links_below b (with_done d m).
Proof. intros H. exact H. Qed.

Lemma links_below_with_call b call m :
  links_below b m -> links_below b (with_call call m).
Proof. intros H. exact H. Qed.

Ltac peel_cursors :=
  repeat first
    [ apply cursors_at_set_profile_match
    | apply cursors_at_set_vacancy_match
    | apply cursors_at_with_done
    | apply cursors_at_with_call ].

Ltac peel_links :=
  repeat first
    [ apply links_below_set_profile_match
    | apply links_below_with_done
    | apply links_below_with_call
    | apply links_below_put_profile ].

(** One proposal inside a round keeps the round invariant and cannot
    throw. *)
Lemma propose_midround c i m :
  midround c i m -> i < length (wrappedProfiles m) ->
  exists m', propose i m = Ret tt m' /\ midround c (S i) m'.
Proof.
  intros (Hb & Hcur & Hlinks & Hdone) Hi.
  assert (Hlinks' : links_below (S c) m).
  { eapply links_below_mono; [exact Hlinks|]. destruct (i =? 0); lia. }
  assert (Hp : forall p0, wrappedProfiles m !! i = Some p0 ->
            length (candidates p0) = length (wrappedVacancies m)
            /\ currentCandidate p0 = c).
  { intros p0 H0. specialize (Hcur i p0 H0). cbv beta in Hcur.
    by rewrite Nat.ltb_irrefl in Hcur. }
  destruct (propose_specP i m)
    as [ Hu | p0 H0 Hex | p0 H0 Hlt Hv | p0 cv H0 Hlt Hv Hcv Hp0
       | p0 cv held H0 Hlt Hv Hcv Hp0 | p0 cv j H0 Hlt Hv Hcv Hcm
       | p0 cv j cm H0 Hlt Hv Hcv Hcm Hpref | p0 cv j cm H0 Hlt Hv Hcv Hcm Hpref ];
    try (destruct (Hp p0 H0) as [Hlen Hc]; rewrite ?Hc in * ).
  - apply lookup_ge_None in Hu. lia.
  - lia.
  - apply lookup_ge_None in Hv. lia.
  - eexists; split; [reflexivity|]. split; [|split; [|split]].
    + cbn. by rewrite length_alter.
    + peel_cursors. eapply cursors_at_put_profile; eauto. lia.
    + cbn [Nat.eqb]. peel_links. apply links_below_set_vacancy_match.
      * by peel_links.
      * intros ? [= <-]. cbn. rewrite length_insert. lia.
    + done.
  - eexists; split; [reflexivity|]. split; [|split; [|split]].
    + done.
    + peel_cursors. eapply cursors_at_put_profile; eauto. lia.
    + cbn [Nat.eqb]. by peel_links.
    + done.
  - destruct (Hlinks _ _ _ Hv Hcv) as [Hj _].
    cbn in Hcm. apply list_lookup_insert_None, lookup_ge_None in Hcm. lia.
  - destruct (Hlinks _ _ _ Hv Hcv) as [Hj _].
    eexists; split; [reflexivity|]. split; [|split; [|split]].
    + cbn. by rewrite length_alter.
    + peel_cursors. eapply cursors_at_put_profile; eauto. lia.
    + cbn [Nat.eqb]. peel_links. apply links_below_set_vacancy_match.
      * by peel_links.
      * intros ? [= <-]. cbn. rewrite length_alter, length_insert. lia.
    + done.
  - destruct (Hlinks _ _ _ Hv Hcv) as [Hj Hci].
    eexists; split; [reflexivity|]. split; [|split; [|split]].
    + done.
    + peel_cursors. eapply cursors_at_put_profile; eauto. lia.
    + cbn [Nat.eqb]. by peel_links.
    + intros _. cbn. apply Hdone. destruct i; [|lia]. cbn in Hci. lia.
Qed.

Lemma forEach_propose_midround c n : forall i m,
  midround c i m -> i + n = length (wrappedProfiles m) ->
  exists m', forEach propose (seq i n) m = Ret tt m' /\ midround c (i + n) m'.
Proof.
  induction n as [|n IH]; intros i m Hmid Hlen; cbn [seq forEach].
  - exists m. rewrite Nat.add_0_r. by split.
  - destruct (propose_midround c i m Hmid) as (m1 & Hprop & Hmid1); [lia|].
    pose proof (propose_frame i m) as Hfr. rewrite Hprop in Hfr.
    apply same_frame_length in Hfr as [Hlp _]. cbn [state_of] in Hlp.
    destruct (IH (S i) m1 Hmid1) as (m' & Hrun & Hmid'); [lia|].
    exists m'. unfold bind. rewrite Hprop. split; [exact Hrun|].
    by rewrite Nat.add_succ_r.
Qed.

(** A round in which the cursors have not reached the end: every profile
    proposes to vacancy [c], nothing throws, and the round ends with [done]
    false because the first proposer finds vacancy [c] unmatched. *)
Lemma round_advances c m :
  lockstep c m -> c < length (wrappedVacancies m) ->
  0 < length (wrappedProfiles m) ->
  exists m', round m = Ret tt m' /\ lockstep (S c) m' /\ done m' = false.
Proof.
  intros (Hb & Hcur & Hlinks) Hc Hnp. unfold round, bind, setDone.
  cbn [with_done wrappedProfiles].
  destruct (forEach_propose_midround c (length (wrappedProfiles m)) 0
              (with_done true m)) as (m' & Hrun & Hmid).
  { split; [exact Hc|]. split; [|split].
    - intros k p Hk. exact (Hcur k p Hk).
    - exact Hlinks.
    - lia. }
  { done. }
  exists m'. split; [exact Hrun|].
  pose proof (round_frame m) as Hfr. unfold round, bind, setDone in Hfr.
  cbn [with_done wrappedProfiles] in Hfr. rewrite Hrun in Hfr.
  apply same_frame_length in Hfr as [Hlp Hlv]. cbn [state_of] in Hlp, Hlv.
  destruct Hmid as (Hb' & Hcur' & Hlinks' & Hdone'). cbn [plus] in *.
  split; [|apply Hdone'; lia].
  split; [lia|]. split.
  - intros k p Hk. destruct (Hcur' k p Hk) as [Hl Hk'].
    split; [exact Hl|]. apply lookup_lt_Some in Hk. rewrite Hlp in Hk.
    destruct (Nat.ltb_spec k (length (wrappedProfiles m))); [done|lia].
  - destruct (Nat.eqb_spec (length (wrappedProfiles m)) 0); [lia|done].
Qed.

Lemma propose_exhausted_id i p0 m :
  wrappedProfiles m !! i = Some p0 ->
  length (candidates p0) <= currentCandidate p0 ->
  propose i m = Ret tt m.
Proof.
  intros H0 Hex. unfold propose, bind at 1, getProfile. rewrite H0.
  rewrite nextCandidate_exhausted by exact Hex.
  unfold bind, putProfile. cbn. by rewrite put_profile_id.
Qed.

Lemma forEach_idle (callback : nat -> M T unit) indices m :
  (forall i, In i indices -> callback i m = Ret tt m) ->
  forEach callback indices m = Ret tt m.
Proof.
  induction indices as [|i rest IH]; intros H; cbn [forEach]; [done|].
  unfold bind. rewrite H by (by left). apply IH. intros k Hk. apply H. by right.
Qed.

(** A round in which every profile has used up its candidates changes
    nothing and leaves [done] true (also when there are no profiles). *)
Lemma round_idle m :
  (forall i p, wrappedProfiles m !! i = Some p ->
               length (candidates p) <= currentCandidate p) ->
  round m = Ret tt (with_done true m).
Proof.
  intros Hex. unfold round, bind, setDone. apply forEach_idle.
  intros i Hi. apply in_seq in Hi as [_ Hi]. cbn in Hi.
  destruct (lookup_lt_is_Some_2 (wrappedProfiles m) i Hi) as [p Hp].
  eapply propose_exhausted_id; [exact Hp|]. by eapply Hex.
Qed.

Lemma lockstep_with_done c b m : lockstep c m -> lockstep c (with_done b m).
Proof. intros H. exact H. Qed.

(** ** The eviction pass and the collection never throw on linked states *)

Lemma evict_done k m : done (state_of (evict k m)) = done m.
Proof. by destruct (evict_specP k m). Qed.

Lemma evictUnmatching_done m : done (state_of (evictUnmatching m)) = done m.
Proof.
  unfold evictUnmatching.
  apply (forEach_related (fun a b : Matcher T => done b = done a)); try done.
  - congruence.
  - intros i a. apply evict_done.
Qed.

Lemma evict_lockstep c k m :
  lockstep c m -> k < length (wrappedVacancies m) ->
  exists m', evict k m = Ret tt m' /\ lockstep c m'.
Proof.
  intros (Hb & Hcur & Hlinks) Hk.
  destruct (evict_specP k m) as [ Hu | v Hv Hm | v j Hv Hm Hmp
                                | v j mp Hv Hm Hmp Hpref
                                | v j mp Hv Hm Hmp Hpref ].
  - apply lookup_ge_None in Hu. lia.
  - by exists m.
  - destruct (Hlinks _ _ _ Hv Hm) as [Hj _]. apply lookup_ge_None in Hmp. lia.
  - eexists. split; [reflexivity|]. done.
  - eexists. split; [reflexivity|]. split; [|split].
    + cbn. by rewrite length_alter.
    + by peel_cursors.
    + peel_links. apply links_below_set_vacancy_match; [by peel_links|done].
Qed.

Lemma forEach_evict_lockstep c n : forall a m,
  lockstep c m -> a + n = length (wrappedVacancies m) ->
  exists m', forEach evict (seq a n) m = Ret tt m' /\ lockstep c m'.
Proof.
  induction n as [|n IH]; intros a m Hls Hlen; cbn [seq forEach].
  - by exists m.
  - destruct (evict_lockstep c a m Hls) as (m1 & Hev & Hls1); [lia|].
    pose proof (evict_frame a m) as Hfr. rewrite Hev in Hfr.
    apply same_frame_length in Hfr as [_ Hlv]. cbn [state_of] in Hlv.
    destruct (IH (S a) m1 Hls1) as (m' & Hrun & Hls'); [lia|].
    exists m'. unfold bind. by rewrite Hev.
Qed.

Lemma evictUnmatching_lockstep c m :
  lockstep c m ->
  exists m', evictUnmatching m = Ret tt m' /\ lockstep c m' /\ done m' = done m.
Proof.
  intros Hls. destruct (forEach_evict_lockstep c _ 0 m Hls eq_refl)
    as (m' & Hrun & Hls').
  exists m'. split; [exact Hrun|]. split; [exact Hls'|].
  pose proof (evictUnmatching_done m) as Hd. unfold evictUnmatching in Hd.
  by rewrite Hrun in Hd.
Qed.

Lemma collect_total c indices m : forall output,
  lockstep c m ->
  (forall i, In i indices -> i < length (wrappedVacancies m)) ->
  exists res, collect indices output m = Ret res m.
Proof.
  intros output (Hb & Hcur & Hlinks). revert output.
  induction indices as [|k rest IH]; intros output Hin; cbn [collect].
  - by exists output.
  - unfold bind at 1, getVacancy.
    destruct (lookup_lt_is_Some_2 (wrappedVacancies m) k) as [v Hv].
    { apply Hin. by left. }
    rewrite Hv. destruct (match_ v) as [j|] eqn:Hj.
    + destruct (Hlinks _ _ _ Hv Hj) as [Hjlt _].
      destruct (lookup_lt_is_Some_2 (wrappedProfiles m) j Hjlt) as [p Hp].
      unfold bind, getProfile. rewrite Hp. apply IH. intros i Hi. apply Hin. by right.
    + apply IH. intros i Hi. apply Hin. by right.
Qed.

Lemma collectMatches_total c m :
  lockstep c m -> exists res, collectMatches m = Ret res m.
Proof.
  intros Hls. unfold collectMatches. eapply collect_total; [exact Hls|].
  intros i Hi. apply in_seq in Hi. lia.
Qed.

(** ** The round loop *)

Lemma match_loop_unfold fuel loopCount m :
  match_loop fuel loopCount m
  = if negb (done m)
       && ((maxLoopCount m <=? 0)%Z || (loopCount <? maxLoopCount m)%Z)
    then match fuel with
         | 0 => None
         | S fuel' =>
             match round m with
             | Ret _ m' => match_loop fuel' (loopCount + 1)%Z m'
             | Throw e m' => Some (Throw e m')
             end
         end
    else Some (Ret loopCount m).
Proof. by destruct fuel. Qed.

Lemma match_loop_stops fuel loopCount m :
  done m = true \/ (0 < maxLoopCount m <= loopCount)%Z ->
  match_loop fuel loopCount m = Some (Ret loopCount m).
Proof.
  intros H. rewrite match_loop_unfold.
  destruct H as [->|H]; [done|].
  replace (maxLoopCount m <=? 0)%Z with false by (symmetry; lia).
  replace (loopCount <? maxLoopCount m)%Z with false by (symmetry; lia).
  by rewrite andb_false_r.
Qed.

Lemma match_loop_continues fuel loopCount m :
  done m = false ->
  (maxLoopCount m <= 0 \/ loopCount < maxLoopCount m)%Z ->
  match_loop (S fuel) loopCount m
  = match round m with
    | Ret _ m' => match_loop fuel (loopCount + 1)%Z m'
    | Throw e m' => Some (Throw e m')
    end.
Proof.
  intros Hd Hcap. rewrite match_loop_unfold, Hd. cbn [negb andb].
  destruct Hcap.
  - by replace (maxLoopCount m <=? 0)%Z with true by (symmetry; lia).
  - replace (loopCount <? maxLoopCount m)%Z with true by (symmetry; lia).
    by rewrite orb_true_r.
Qed.

Lemma lockstep_idle m :
  lockstep (length (wrappedVacancies m)) m ->
  round m = Ret tt (with_done true m).
Proof.
  intros (_ & Hcur & _). apply round_idle. intros i p Hp.
  destruct (Hcur i p Hp). lia.
Qed.

(** With the bound out of the way, the loop started with all cursors at [c]
    runs one round per remaining vacancy and one more, which is idle. *)
Lemma match_loop_converges d : forall c m loopCount fuel,
  lockstep c m -> done m = false -> 0 < length (wrappedProfiles m) ->
  length (wrappedVacancies m) - c = d -> d < fuel ->
  (maxLoopCount m <= 0 \/ loopCount + Z.of_nat d < maxLoopCount m)%Z ->
  exists m',
    match_loop fuel loopCount m = Some (Ret (loopCount + Z.of_nat d + 1)%Z m')
    /\ done m' = true
    /\ lockstep (length (wrappedVacancies m)) m'.
Proof.
  induction d as [|d IH]; intros c m lc fuel Hls Hd Hnp Hleft Hfuel Hcap;
    destruct fuel as [|fuel]; try lia.
  - assert (c = length (wrappedVacancies m)) as -> by (destruct Hls; lia).
    rewrite match_loop_continues by (done || lia).
    rewrite lockstep_idle by exact Hls.
    rewrite match_loop_stops by (by left).
    exists (with_done true m). rewrite Z.add_0_r. by split.
  - rewrite match_loop_continues by (done || lia).
    destruct (round_advances c m Hls) as (m1 & Hround & Hls1 & Hd1); [lia|done|].
    rewrite Hround.
    pose proof (round_frame m) as Hfr. rewrite Hround in Hfr. cbn [state_of] in Hfr.
    destruct (same_frame_length _ _ Hfr) as [Hlp Hlv].
    destruct (IH (S c) m1 (lc + 1)%Z fuel Hls1 Hd1) as (m' & Hloop & Hd' & Hls');
      try lia.
    { rewrite (frame_maxLoop _ _ Hfr). lia. }
    exists m'. rewrite Hloop. split; [f_equal; f_equal; lia|].
    split; [exact Hd'|]. by rewrite <- Hlv.
Qed.

(** With a positive bound that leaves room for [r] more rounds, none of
    which can be idle, the loop stops at the bound with [done] false. *)
Lemma match_loop_hits_bound r : forall c m loopCount fuel,
  lockstep c m -> done m = false -> 0 < length (wrappedProfiles m) ->
  (0 < maxLoopCount m)%Z -> maxLoopCount m = (loopCount + Z.of_nat r)%Z ->
  c + r <= length (wrappedVacancies m) -> r <= fuel ->
  exists m',
    match_loop fuel loopCount m = Some (Ret (maxLoopCount m) m')
    /\ done m' = false
    /\ lockstep (c + r) m'.
Proof.
  induction r as [|r IH]; intros c m lc fuel Hls Hd Hnp Hpos Hmax Hroom Hfuel.
  - rewrite match_loop_stops by (right; lia).
    exists m. rewrite Nat.add_0_r. split; [f_equal; f_equal; lia|done].
  - destruct fuel as [|fuel]; [lia|].
    rewrite match_loop_continues by (done || lia).
    destruct (round_advances c m Hls) as (m1 & Hround & Hls1 & Hd1); [lia|done|].
    rewrite Hround.
    pose proof (round_frame m) as Hfr. rewrite Hround in Hfr. cbn [state_of] in Hfr.
    destruct (same_frame_length _ _ Hfr) as [Hlp Hlv].
    destruct (IH (S c) m1 (lc + 1)%Z fuel Hls1 Hd1) as (m' & Hloop & Hd' & Hls');
      rewrite ?(frame_maxLoop _ _ Hfr); try lia.
    exists m'. rewrite Hloop, (frame_maxLoop _ _ Hfr).
    split; [done|]. split; [exact Hd'|]. by rewrite Nat.add_succ_r.
Qed.

(** Without profiles the first round is idle. *)
Lemma match_loop_no_profiles m loopCount fuel :
  wrappedProfiles m = [] -> done m = false ->
  (maxLoopCount m <= 0 \/ loopCount < maxLoopCount m)%Z ->
  match_loop (S fuel) loopCount m = Some (Ret (loopCount + 1)%Z (with_done true m)).
Proof.
  intros Hnil Hd Hcap. rewrite match_loop_continues by done.
  rewrite round_idle by (intros i p; by rewrite Hnil).
  by rewrite match_loop_stops by (by left).
Qed.

Lemma match_loop_fuel_mono fuel : forall fuel' loopCount m o,
  match_loop fuel loopCount m = Some o -> fuel <= fuel' ->
  match_loop fuel' loopCount m = Some o.
Proof.
  induction fuel as [|fuel IH]; intros fuel' lc m o H Hle;
    rewrite match_loop_unfold in H; rewrite match_loop_unfold;
    destruct (negb (done m) && _); try done.
  destruct fuel' as [|fuel']; [lia|].
  destruct (round m) as [[] m1|e m1]; [|done].
  apply IH; [done|lia].
Qed.

Lemma getMatches_fuel_mono fuel fuel' m o :
  getMatches fuel m = Some o -> fuel <= fuel' -> getMatches fuel' m = Some o.
Proof.
  unfold getMatches, Matcher_match. intros H Hle.
  destruct (negb (done m)); [|done].
  destruct (match_loop fuel 0 m) as [o1|] eqn:Hloop; [|done].
  by rewrite (match_loop_fuel_mono _ _ _ _ _ Hloop Hle).
Qed.

(** ** Runs started from a state between rounds *)

Lemma new_Matcher_lockstep (profiles vacancies : list T) prefers cap :
  lockstep 0 (new_Matcher profiles vacancies prefers cap).
Proof.
  split; [lia|]. split.
  - intros k p Hk. cbn in *.
    change (map ?f ?l) with (f <$> l) in Hk.
    apply list_lookup_fmap_Some in Hk as (x & -> & _).
    cbn. by rewrite length_map.
  - intros k v j Hk Hj. cbn in Hk.
    change (map ?f ?l) with (f <$> l) in Hk.
    apply list_lookup_fmap_Some in Hk as (x & -> & _). done.
Qed.

Lemma Matcher_match_converges c m fuel :
  lockstep c m -> done m = false ->
  length (wrappedVacancies m) - c < fuel ->
  wrappedProfiles m = []
    \/ (maxLoopCount m <= 0)%Z
    \/ (Z.of_nat (length (wrappedVacancies m) - c) < maxLoopCount m)%Z ->
  exists loopCount m1 m',
    match_loop fuel 0 m = Some (Ret loopCount m1)
    /\ (1 <= loopCount <= Z.of_nat (length (wrappedVacancies m) - c) + 1)%Z
    /\ done m1 = true
    /\ Matcher_match fuel m = Some (Ret tt m')
    /\ done m' = true
    /\ (exists c', lockstep c' m').
Proof.
  intros Hls Hd Hfuel Hcase.
  assert (Hloop : exists loopCount m1 c1,
             match_loop fuel 0 m = Some (Ret loopCount m1)
             /\ (1 <= loopCount <= Z.of_nat (length (wrappedVacancies m) - c) + 1)%Z
             /\ done m1 = true /\ lockstep c1 m1).
  { destruct (wrappedProfiles m) as [|p0 ps] eqn:Hps.
    - destruct fuel as [|fuel]; [lia|].
      exists 1%Z, (with_done true m), c.
      rewrite match_loop_no_profiles by (done || lia).
      split; [done|]. split; [lia|]. by split.
    - destruct Hcase as [|Hcase]; [done|].
      destruct (match_loop_converges (length (wrappedVacancies m) - c)
                  c m 0%Z fuel Hls Hd) as (m1 & Hrun & Hd1 & Hls1);
        try done; try lia.
      { rewrite Hps. cbn. lia. }
      exists (0 + Z.of_nat (length (wrappedVacancies m) - c) + 1)%Z, m1,
        (length (wrappedVacancies m)).
      split; [done|]. split; [lia|]. by split. }
  destruct Hloop as (lc & m1 & c1 & Hrun & Hlc & Hd1 & Hls1).
  destruct (evictUnmatching_lockstep c1 m1 Hls1) as (m' & Hev & Hls' & Hd').
  exists lc, m1, m'. unfold Matcher_match. rewrite Hrun, Hd1. cbn [negb].
  rewrite Hev. repeat split; try done; try lia.
  - congruence.
  - by exists c1.
Qed.

Lemma Matcher_match_hits_bound c m fuel :
  lockstep c m -> done m = false -> wrappedProfiles m <> [] ->
  (0 < maxLoopCount m)%Z ->
  (maxLoopCount m <= Z.of_nat (length (wrappedVacancies m) - c))%Z ->
  length (wrappedVacancies m) - c <= fuel ->
  exists m',
    Matcher_match fuel m = Some (Throw MaxLoopCountReached m')
    /\ done m' = false
    /\ lockstep (c + Z.to_nat (maxLoopCount m)) m'.
Proof.
  intros Hls Hd Hps Hpos Hcap Hfuel.
  destruct (match_loop_hits_bound (Z.to_nat (maxLoopCount m)) c m 0%Z fuel Hls Hd)
    as (m' & Hrun & Hd' & Hls'); try lia.
  { destruct (wrappedProfiles m); [done|cbn; lia]. }
  exists m'. unfold Matcher_match. rewrite Hrun, Hd'. by cbn.
Qed.

Lemma getMatches_converges c m fuel :
  lockstep c m -> done m = false ->
  length (wrappedVacancies m) - c < fuel ->
  wrappedProfiles m = []
    \/ (maxLoopCount m <= 0)%Z
    \/ (Z.of_nat (length (wrappedVacancies m) - c) < maxLoopCount m)%Z ->
  exists out m', getMatches fuel m = Some (Ret out m') /\ done m' = true.
Proof.
  intros Hls Hd Hfuel Hcase.
  destruct (Matcher_match_converges c m fuel Hls Hd Hfuel Hcase)
    as (lc & m1 & m' & _ & _ & _ & Hmatch & Hd' & c' & Hls').
  destruct (collectMatches_total c' m' Hls') as (out & Hout).
  exists out, m'. unfold getMatches. rewrite Hd. cbn [negb].
  by rewrite Hmatch, Hout.
Qed.

Lemma getMatches_hits_bound c m fuel :
  lockstep c m -> done m = false -> wrappedProfiles m <> [] ->
  (0 < maxLoopCount m)%Z ->
  (maxLoopCount m <= Z.of_nat (length (wrappedVacancies m) - c))%Z ->
  length (wrappedVacancies m) - c <= fuel ->
  exists m', getMatches fuel m = Some (Throw MaxLoopCountReached m')
             /\ done m' = false.
Proof.
  intros Hls Hd Hps Hpos Hcap Hfuel.
  destruct (Matcher_match_hits_bound c m fuel Hls Hd Hps Hpos Hcap Hfuel)
    as (m' & Hmatch & Hd' & _).
  exists m'. unfold getMatches. rewrite Hd. cbn [negb]. by rewrite Hmatch.
Qed.

(** ** Rounds counted from a fresh engine *)

Lemma rounds_lockstep k : forall c m,
  lockstep c m -> 0 < length (wrappedProfiles m) ->
  exists m',
    rounds k m = Ret tt m'
    /\ lockstep (Nat.min (c + k) (length (wrappedVacancies m))) m'
    /\ length (wrappedVacancies m') = length (wrappedVacancies m)
    /\ (0 < k -> done m' = negb (c + k <=? length (wrappedVacancies m))).
Proof.
  induction k as [|k IH]; intros c m Hls Hnp; cbn [rounds].
  - exists m. rewrite Nat.add_0_r, Nat.min_l by (destruct Hls; lia).
    split; [done|]. split; [exact Hls|]. split; [done|lia].
  - unfold bind.
    destruct (le_lt_dec (length (wrappedVacancies m)) c) as [Hge|Hlt].
    + assert (c = length (wrappedVacancies m)) as Hc by (destruct Hls; lia).
      rewrite lockstep_idle by (by rewrite <- Hc).
      destruct (IH c (with_done true m)) as (m' & Hrun & Hls' & Hlen & Hdone);
        [done|done|].
      cbn [with_done wrappedVacancies] in *.
      exists m'. split; [exact Hrun|].
      split; [by rewrite !Nat.min_r in * by lia|]. split; [exact Hlen|].
      intros _. destruct k as [|k].
      * cbn in Hrun. injection Hrun as <-. cbn.
        by destruct (Nat.leb_spec (c + 1) (length (wrappedVacancies m))); [lia|].
      * rewrite Hdone by lia.
        destruct (Nat.leb_spec (c + S k) (length (wrappedVacancies m))),
                 (Nat.leb_spec (c + S (S k)) (length (wrappedVacancies m)));
          done || lia.
    + destruct (round_advances c m Hls Hlt Hnp) as (m1 & Hround & Hls1 & Hd1).
      rewrite Hround.
      pose proof (round_frame m) as Hfr. rewrite Hround in Hfr.
      apply same_frame_length in Hfr as [Hlp Hlv]. cbn [state_of] in Hlp, Hlv.
      destruct (IH (S c) m1 Hls1) as (m' & Hrun & Hls' & Hlen & Hdone); [lia|].
      rewrite Hlv in *.
      exists m'. split; [exact Hrun|].
      split; [by replace (c + S k) with (S c + k) by lia|].
      split; [exact Hlen|].
      intros _. destruct k as [|k].
      * cbn in Hrun. injection Hrun as <-. rewrite Hd1.
        by destruct (Nat.leb_spec (c + 1) (length (wrappedVacancies m))); [|lia].
      * rewrite Hdone by lia. by replace (c + S (S k)) with (S c + S k) by lia.
Qed.

Lemma rounds_S k m :
  rounds (S k) m
  = match round m with
    | Ret _ m' => rounds k m'
    | Throw e m' => Throw e m'
    end.
Proof. reflexivity. Qed.

Lemma rounds_no_profiles k m :
  wrappedProfiles m = [] -> rounds (S k) m = Ret tt (with_done true m).
Proof.
  intros Hnil. revert m Hnil. induction k as [|k IH]; intros m Hnil;
    rewrite rounds_S, round_idle by (intros i p; by rewrite Hnil).
  - done.
  - by rewrite IH.
Qed.

Lemma rounds_frame k : forall m, same_frame m (state_of (rounds k m)).
Proof.
  induction k as [|k IH]; intros m; cbn [rounds]; [apply same_frame_refl|].
  unfold bind. pose proof (round_frame m) as Hr.
  destruct (round m) as [[] m1|e m1]; cbn [state_of] in *; [|done].
  eapply same_frame_trans; [exact Hr|apply IH].
Qed.

(** ** Runs of a fresh engine *)

Lemma bound_too_low_dec (profiles vacancies : list T) (cap : Z) :
  bound_too_low profiles vacancies cap \/ ~ bound_too_low profiles vacancies cap.
Proof.
  unfold bound_too_low. destruct profiles as [|p ps]; [right; by intros []|].
  destruct (Z_lt_le_dec 0 cap); [|right; intros []; lia].
  destruct (Z_le_gt_dec cap (Z.of_nat (length vacancies)));
    [left|right; intros []; lia].
  split; [done|lia].
Qed.

Lemma fresh_throws (profiles vacancies : list T) prefers cap fuel :
  bound_too_low profiles vacancies cap -> length vacancies <= fuel ->
  exists m', getMatches fuel (new_Matcher profiles vacancies prefers cap) = Some (Throw MaxLoopCountReached m')
             /\ done m' = false.
Proof.
  intros [Hps Hcap] Hfuel.
  apply (getMatches_hits_bound 0); cbn; rewrite ?length_map; try done; try lia.
  - apply new_Matcher_lockstep.
  - by destruct profiles.
Qed.

Lemma fresh_returns (profiles vacancies : list T) prefers cap fuel :
  ~ bound_too_low profiles vacancies cap -> length vacancies < fuel ->
  exists out m', getMatches fuel (new_Matcher profiles vacancies prefers cap) = Some (Ret out m') /\ done m' = true.
Proof.
  intros Hnot Hfuel.
  apply (getMatches_converges 0); cbn; rewrite ?length_map; try done; try lia.
  - apply new_Matcher_lockstep.
  - destruct profiles as [|p ps] eqn:Hps; [by left|right].
    destruct (Z_lt_le_dec 0 cap); [|by left]. right.
    destruct (Z_le_gt_dec cap (Z.of_nat (length vacancies))); [|lia].
    exfalso. apply Hnot. split; [done|lia].
Qed.

Lemma fresh_rounds_done (profiles vacancies : list T) prefers cap k :
  0 < k ->
  done (state_of (rounds k (new_Matcher profiles vacancies prefers cap)))
  = match profiles with
    | [] => true
    | _ => negb (k <=? length vacancies)
    end.
Proof.
  intros Hk. destruct profiles as [|p ps] eqn:Hps.
  - destruct k as [|k]; [lia|]. by rewrite rounds_no_profiles.
  - rewrite <- Hps. set (m0 := new_Matcher profiles vacancies prefers cap).
    destruct (rounds_lockstep k 0 m0) as (m' & Hrun & _ & _ & Hdone).
    { apply new_Matcher_lockstep. }
    { subst m0. rewrite Hps. cbn. lia. }
    rewrite Hrun. cbn [state_of]. rewrite Hdone by exact Hk.
    subst m0. cbn. by rewrite length_map.
Qed.

Lemma fresh_rounds_cursor (profiles vacancies : list T) prefers cap k i p :
  wrappedProfiles (state_of (rounds k (new_Matcher profiles vacancies prefers cap))) !! i = Some p ->
  currentCandidate p = Nat.min k (length vacancies).
Proof.
  set (m0 := new_Matcher profiles vacancies prefers cap). intros Hp.
  assert (Hnp : 0 < length (wrappedProfiles m0)).
  { pose proof (rounds_frame k m0) as Hfr.
    apply same_frame_length in Hfr as [Hlp _].
    apply lookup_lt_Some in Hp. lia. }
  destruct (rounds_lockstep k 0 m0) as (m' & Hrun & (_ & Hcur & _) & _ & _).
  { apply new_Matcher_lockstep. }
  { exact Hnp. }
  rewrite Hrun in Hp. cbn [state_of] in Hp.
  destruct (Hcur i p Hp) as [_ ->]. subst m0. cbn. by rewrite length_map.
Qed.

(** C7. On a fresh engine [getMatches] always finishes (any fuel above the
    number of vacancies is enough); it never fails on an array access; it
    throws the max-loop-count error exactly when the bound is positive and
    each of the first [maxLoopCount] rounds ends with [done] false; and with
    a bound of 0 or less it returns a pair list. *)
Theorem nonconvergence_iff (profiles vacancies : list T)
    (prefers : T -> option T -> T -> bool) (cap : Z) (extra : nat) :
  let m0 := new_Matcher profiles vacancies prefers cap in
  exists o,
    getMatches (S (length vacancies) + extra) m0 = Some o
    /\ (forall m', o <> Throw TypeError m')
    /\ ((exists m', o = Throw MaxLoopCountReached m')
        <-> (0 < cap)%Z
            /\ forall k, 0 < k -> (Z.of_nat k <= cap)%Z ->
                  done (state_of (rounds k m0)) = false)
    /\ ((cap <= 0)%Z -> exists out m', o = Ret out m').
Proof.
  intros m0.
  destruct (bound_too_low_dec profiles vacancies cap) as [Hlow|Hok].
  - destruct (fresh_throws profiles vacancies prefers cap
                (S (length vacancies) + extra) Hlow) as (m' & Hget & _); [lia|].
    exists (Throw MaxLoopCountReached m'). split; [exact Hget|].
    destruct Hlow as [Hps Hcap]. split; [done|]. split; [split|lia].
    + intros _. split; [lia|]. intros k Hk Hkc.
      subst m0. rewrite fresh_rounds_done by exact Hk.
      destruct profiles; [done|].
      by destruct (Nat.leb_spec k (length vacancies)); [|lia].
    + intros _. by exists m'.
  - destruct (fresh_returns profiles vacancies prefers cap
                (S (length vacancies) + extra) Hok) as (out & m' & Hget & _); [lia|].
    exists (Ret out m'). split; [exact Hget|]. split; [done|].
    split; [split|by exists out, m'].
    + by intros [? ?].
    + intros [Hpos Hrounds]. exfalso.
      destruct profiles as [|p ps].
      * specialize (Hrounds 1). subst m0.
        rewrite fresh_rounds_done in Hrounds by lia.
        discriminate Hrounds; lia.
      * destruct (Z_le_gt_dec cap (Z.of_nat (length vacancies))).
        { apply Hok. split; [done|lia]. }
        specialize (Hrounds (S (length vacancies))). subst m0.
        rewrite fresh_rounds_done in Hrounds by lia.
        destruct (Nat.leb_spec (S (length vacancies)) (length vacancies)); [lia|].
        discriminate Hrounds; lia.
Qed.

(** C8 (amended). With at least one profile, a positive bound [N] and the
    predicate that always answers true, [getMatches] throws the
    max-loop-count error exactly when [N] is at most the number of
    vacancies; for a larger [N] the loop reaches its idle round and a pair
    list is returned. *)
Theorem always_true_throws_iff (profiles vacancies : list T) (cap : Z)
    (extra : nat) :
  profiles <> [] -> (0 < cap)%Z ->
  exists o,
    getMatches (S (length vacancies) + extra)
      (new_Matcher profiles vacancies (fun _ _ _ => true) cap) = Some o
    /\ ((exists m', o = Throw MaxLoopCountReached m')
        <-> (cap <= Z.of_nat (length vacancies))%Z)
    /\ ((Z.of_nat (length vacancies) < cap)%Z -> exists out m', o = Ret out m').
Proof.
  intros Hps Hpos.
  destruct (bound_too_low_dec profiles vacancies cap) as [Hlow|Hok].
  - destruct (fresh_throws profiles vacancies (fun _ _ _ => true) cap
                (S (length vacancies) + extra) Hlow) as (m' & Hget & _); [lia|].
    exists (Throw MaxLoopCountReached m'). split; [exact Hget|].
    destruct Hlow as [_ Hcap]. split; [split; [lia|by exists m']|lia].
  - destruct (fresh_returns profiles vacancies (fun _ _ _ => true) cap
                (S (length vacancies) + extra) Hok) as (out & m' & Hget & _); [lia|].
    exists (Ret out m'). split; [exact Hget|].
    split; [split|by exists out, m'].
    + by intros [? ?].
    + intros Hle. exfalso. apply Hok. split; [done|lia].
Qed.

(** C10. With bound 0 the round loop of a fresh engine terminates for all
    inputs and every predicate: [length vacancies + 1] iterations of fuel
    are enough, the loop ends with [done] true after at least one and at
    most [length vacancies + 1] rounds, [match()] then completes without
    throwing, and after [k] rounds every profile cursor stands at
    [min k (length vacancies)]. *)
Theorem unbounded_loop_terminates (profiles vacancies : list T)
    (prefers : T -> option T -> T -> bool) (extra : nat) :
  let m0 := new_Matcher profiles vacancies prefers 0 in
  let fuel := S (length vacancies) + extra in
  (exists loopCount m1,
     match_loop fuel 0 m0 = Some (Ret loopCount m1)
     /\ done m1 = true
     /\ (1 <= loopCount <= Z.of_nat (length vacancies) + 1)%Z)
  /\ (exists m', Matcher_match fuel m0 = Some (Ret tt m') /\ done m' = true)
  /\ (forall k i p,
        wrappedProfiles (state_of (rounds k m0)) !! i = Some p ->
        currentCandidate p = Nat.min k (length vacancies)).
Proof.
  intros m0 fuel.
  destruct (Matcher_match_converges 0 m0 fuel)
    as (lc & m1 & m' & Hloop & Hlc & Hd1 & Hmatch & Hd' & _).
  { apply new_Matcher_lockstep. }
  { done. }
  { subst m0 fuel. cbn. rewrite length_map. lia. }
  { right. left. cbn. lia. }
  assert (Hlen : length (wrappedVacancies m0) = length vacancies).
  { subst m0. cbn. by rewrite length_map. }
  rewrite Hlen, Nat.sub_0_r in Hlc.
  split; [by exists lc, m1|]. split; [by exists m'|].
  intros k i p. apply fresh_rounds_cursor.
Qed.

(** ** Repeated calls of getMatches *)

(** C9 (amended). Once a call of [getMatches] has returned a pair list,
    every later call returns the same list and leaves the whole engine
    state as it is: cursors, links, [done] flag and the record of predicate
    invocations are untouched, so no round and no predicate call happens
    again.  (A call that threw leaves [done] false, and the next call runs
    the loop again.) *)
Theorem getMatches_idempotent m (fuel : nat) (out : list (T * T)) m' :
  getMatches fuel m = Some (Ret out m') ->
  done m' = true
  /\ forall fuel', getMatches fuel' m' = Some (Ret out m').
Proof.
  unfold getMatches at 1. intros Hget.
  assert (Hcoll : collectMatches m' = Ret out m' /\ done m' = true).
  { destruct (done m) eqn:Hd; cbn [negb] in Hget.
    - injection Hget as Hget. unfold collectMatches in *.
      destruct (collect_pairs _ _ _ _ _ Hget) as [-> _]. by split.
    - destruct (Matcher_match fuel m) as [[[] m2|e m2]|] eqn:Hmatch; try done.
      injection Hget as Hget. unfold collectMatches in Hget.
      destruct (collect_pairs _ _ _ _ _ Hget) as [-> _].
      split; [exact Hget|].
      unfold Matcher_match in Hmatch.
      destruct (match_loop fuel 0 m) as [[lc m1|e m1]|]; try done.
      destruct (done m1) eqn:Hd1; cbn [negb] in Hmatch; [|done].
      injection Hmatch as Hev. pose proof (evictUnmatching_done m1) as Hdone.
      rewrite Hev in Hdone. cbn [state_of] in Hdone. congruence. }
  destruct Hcoll as [Hcoll Hd']. split; [exact Hd'|].
  intros fuel'. unfold getMatches. rewrite Hd'. cbn [negb]. by rewrite Hcoll.
Qed.

(** ** Convergence of a round *)

Lemma propose_converged i m :
  done (state_of (propose i m)) = true ->
  done m = true /\ matches (state_of (propose i m)) = matches m.
Proof.
  destruct (propose_specP i m); cbn [state_of]; intros Hd; try done;
    cbn in Hd; (split; [exact Hd|]).
  - by apply matches_put_profile.
  - by apply matches_put_profile.
  - by apply (matches_put_profile i p0 m).
Qed.

(** C5 (amended). If a round ends with [done] still true, then no proposal
    of that round changed a match link on either side: nothing was accepted
    and nothing was evicted.  (The converse does not hold: a round can end
    with [done] false although no link changed.) *)
Theorem round_converged_no_change m m' :
  round m = Ret tt m' -> done m' = true -> matches m' = matches m.
Proof.
  intros Hround Hd.
  pose proof (forEach_related
                (fun a b : Matcher T =>
                   done b = true -> done a = true /\ matches b = matches a)
                propose (seq 0 (length (wrappedProfiles m)))) as Hrel.
  unfold round, bind, setDone in Hround. cbn [with_done wrappedProfiles] in Hround.
  specialize (Hrel ltac:(done)).
  specialize (Hrel ltac:(intros m1 m2 m3 H12 H23 H3;
                         destruct (H23 H3) as [H2 E23];
                         destruct (H12 H2) as [H1 E12];
                         split; [done|congruence])).
  specialize (Hrel propose_converged (with_done true m)).
  rewrite Hround in Hrel. cbn [state_of] in Hrel.
  by destruct (Hrel Hd) as [_ ->].
Qed.

(** ** When the predicate is consulted *)

(** C4 (amended). A profile with candidates left proposes to the vacancy
    under its cursor.  If that vacancy is unmatched, the predicate is not
    invoked and the round is marked not converged; the vacancy accepts at
    once when the profile is unmatched too, and when the profile already
    holds a match nothing but its cursor and the [done] flag changes.  The
    predicate is invoked, once, exactly when the vacancy already holds a
    match, with that match as second argument. *)
Theorem propose_predicate_use (i : nat) m (p cv : MatchContainer T) :
  wrappedProfiles m !! i = Some p ->
  currentCandidate p < length (candidates p) ->
  wrappedVacancies m !! currentCandidate p = Some cv ->
  let advanced := put_profile i (snd (nextCandidate p)) m in
  (match_ cv = None ->
     calls (state_of (propose i m)) = calls m
     /\ done (state_of (propose i m)) = false
     /\ (match_ p = None ->
          propose i m
          = Ret tt (set_profile_match i (Some (currentCandidate p))
                     (set_vacancy_match (currentCandidate p) (Some i)
                       (with_done false advanced))))
     /\ (match_ p <> None ->
          propose i m = Ret tt (with_done false advanced)
          /\ matches (with_done false advanced) = matches m))
  /\ (forall j cm,
        match_ cv = Some j -> wrappedProfiles m !! j = Some cm ->
        calls (state_of (propose i m))
        = calls m ++ [(obj cv, Some (obj cm), obj p)]).
Proof.
  intros Hp Hlt Hcv advanced.
  assert (Hobj : forall j cm cm',
            wrappedProfiles m !! j = Some cm ->
            wrappedProfiles advanced !! j = Some cm' -> obj cm' = obj cm).
  { intros j cm cm' Hcm Hcm'. subst advanced. cbn in Hcm'.
    rewrite list_lookup_insert in Hcm'. case_decide as Hij.
    - destruct Hij as [<- _]. injection Hcm' as <-.
      assert (cm = p) as -> by congruence. apply nextCandidate_fields.
    - congruence. }
  destruct (propose_specP i m)
    as [ Hu | p0 H0 Hex | p0 H0 Hlt0 Hv | p0 cv0 H0 Hlt0 Hv Hcv0 Hp0
       | p0 cv0 held H0 Hlt0 Hv Hcv0 Hp0 | p0 cv0 j0 H0 Hlt0 Hv Hcv0 Hcm
       | p0 cv0 j0 cm0 H0 Hlt0 Hv Hcv0 Hcm Hpref
       | p0 cv0 j0 cm0 H0 Hlt0 Hv Hcv0 Hcm Hpref ];
    try congruence;
    assert (p0 = p) as -> by congruence;
    try lia; try congruence;
    assert (cv0 = cv) as -> by congruence; cbn [state_of].
  - split; [|congruence]. intros _. repeat split; try done; try congruence.
  - split; [|congruence]. intros _. repeat split; try done; try congruence.
    by apply matches_put_profile.
  - split; [congruence|]. intros j cm Hj Hm.
    assert (Hjm : wrappedProfiles m !! j0 = None).
    { by apply list_lookup_insert_None in Hcm. }
    congruence.
  - split; [congruence|]. intros j cm Hj Hm. cbn.
    assert (j0 = j) as -> by congruence. by rewrite (Hobj j cm cm0).
  - split; [congruence|]. intros j cm Hj Hm. cbn.
    assert (j0 = j) as -> by congruence. by rewrite (Hobj j cm cm0).
Qed.

(** ** The candidate cursor *)

Lemma nextCandidate_calls_from (k : nat) : forall c : MatchContainer T,
  currentCandidate c <= length (candidates c) ->
  let left := length (candidates c) - currentCandidate c in
  fst (nextCandidate_calls k c)
    = map Z.of_nat (seq (currentCandidate c) (Nat.min k left))
      ++ repeat (-1)%Z (k - left)
  /\ currentCandidate (snd (nextCandidate_calls k c))
    = Nat.min (currentCandidate c + k) (length (candidates c))
  /\ candidates (snd (nextCandidate_calls k c)) = candidates c.
Proof.
  induction k as [|k IH]; intros c Hle; cbn zeta.
  - cbn. repeat split; try lia.
  - cbn [nextCandidate_calls]. unfold nextCandidate.
    destruct (Nat.leb_spec (length (candidates c)) (currentCandidate c)) as [Hge|Hlt].
    + specialize (IH c Hle). cbn zeta in IH.
      destruct (nextCandidate_calls k c) as [outs c2] eqn:E.
      cbn [fst snd] in *. destruct IH as (IH1 & IH2 & IH3).
      replace (length (candidates c) - currentCandidate c) with 0 in * by lia.
      rewrite Nat.min_0_r in *. rewrite Nat.sub_0_r in *. cbn [seq map app] in *.
      rewrite IH1. cbn. repeat split; try lia. assumption.
    + set (c1 := {| obj := obj c; match_ := match_ c;
                    currentCandidate := currentCandidate c + 1;
                    candidates := candidates c |}).
      assert (Hc1 : currentCandidate c1 <= length (candidates c1)) by (cbn; lia).
      specialize (IH c1 Hc1). cbn zeta in IH.
      destruct (nextCandidate_calls k c1) as [outs c2] eqn:E.
      cbn [fst snd] in *. destruct IH as (IH1 & IH2 & IH3).
      cbn [currentCandidate candidates c1] in IH1, IH2, IH3.
      rewrite IH1, IH2, IH3.
      replace (S k - (length (candidates c) - currentCandidate c))
        with (k - (length (candidates c) - (currentCandidate c + 1))) by lia.
      replace (Nat.min (S k) (length (candidates c) - currentCandidate c))
        with (S (Nat.min k (length (candidates c) - (currentCandidate c + 1)))) by lia.
      cbn [seq map app]. rewrite Nat.add_1_r.
      repeat split; try lia. 
Qed.

(** C6. On a freshly built container over [n] candidates, the first [n]
    calls of [nextCandidate] return [0, 1, ..., n-1] in order, every later
    call returns [-1] (which is not an index), and after any number of calls
    the cursor is the smaller of that number and [n], hence never above
    [n].  (The calls cannot fail: [nextCandidate] is a total function.) *)
Theorem nextCandidate_sequence (o : T) (cands : list T) :
  let n := length cands in
  let fresh := new_MatchContainer o cands in
  (forall extra,
     fst (nextCandidate_calls (n + extra) fresh)
       = map Z.of_nat (seq 0 n) ++ repeat (-1)%Z extra)
  /\ (forall k,
     currentCandidate (snd (nextCandidate_calls k fresh)) = Nat.min k n
     /\ currentCandidate (snd (nextCandidate_calls k fresh)) <= n)
  /\ (forall i, (-1)%Z <> Z.of_nat i).
Proof.
  cbn zeta. split; [|split].
  - intros extra.
    destruct (nextCandidate_calls_from (length cands + extra)
                (new_MatchContainer o cands)) as (H & _); [cbn; lia|].
    cbn [new_MatchContainer currentCandidate candidates] in H.
    rewrite H. f_equal; [f_equal; f_equal; lia | f_equal; lia].
  - intros k.
    destruct (nextCandidate_calls_from k (new_MatchContainer o cands))
      as (_ & H & _); [cbn; lia|].
    cbn [new_MatchContainer currentCandidate candidates] in H.
    rewrite H. cbn. lia.
  - intros i. lia.
Qed.

End Properties.


(** * Concrete runs *)

(** ** The repository's tests *)

Example test_emptyMatcher :
  result_of (getMatches 1 (new_Matcher [] [] prefers_complement 0)) = Some (inl []).
Proof. vm_compute. reflexivity. Qed.

Example test_emptyProfiles :
  result_of (getMatches 1
    (new_Matcher [] [(1, 2); (3, 4); (7, 8)] prefers_complement 0)) = Some (inl []).
Proof. vm_compute. reflexivity. Qed.

Example test_emptyVacancies :
  result_of (getMatches 1
    (new_Matcher [(1, 2); (3, 4); (7, 8)] [] prefers_complement 0)) = Some (inl []).
Proof. vm_compute. reflexivity. Qed.

Example test_multimatch :
  result_of (getMatches 4 multimatch)
  = Some (inl [((2, 1), (1, 2)); ((4, 3), (3, 4))]).
Proof. vm_compute. reflexivity. Qed.

Example test_simpleMatch :
  result_of (getMatches 2 simpleMatch) = Some (inl [((2, 1), (1, 2))]).
Proof. vm_compute. reflexivity. Qed.

Example test_matcherSequence :
  fst (nextCandidate_calls 4 (new_MatchContainer 0 [1; 2; 3]))
  = [0; 1; 2; -1]%Z.
Proof. vm_compute. reflexivity. Qed.

(** ** C1: a run to which the theorem applies *)

(** The "multimatch" test run satisfies the hypotheses of
    [getMatches_pairs_endorsed]: both pairs it returns pass the
    self-comparison. *)
Lemma getMatches_pairs_endorsed_witness :
  done multimatch = false
  /\ getMatches 4 multimatch
     = Some (Ret [((2, 1), (1, 2)); ((4, 3), (3, 4))]
                 (state_after multimatch (getMatches 4 multimatch)))
  /\ forall vacancy profile : item,
       In (vacancy, profile) [((2, 1), (1, 2)); ((4, 3), (3, 4))] ->
       prefers_complement vacancy (Some profile) profile = true.
Proof.
  split; [reflexivity|]. split; [vm_compute; reflexivity|].
  apply (getMatches_pairs_endorsed 4 multimatch
           [((2, 1), (1, 2)); ((4, 3), (3, 4))]
           (state_after multimatch (getMatches 4 multimatch)));
    [reflexivity | vm_compute; reflexivity].
Defined.

(** ** C2 and C3: a profile that changes vacancy leaves a stale link behind

    In [contested] both vacancies want colour 4, which only profile 1 has.
    Round 1: profile 0 takes the free vacancy 0, then profile 1 replaces it
    there.  Round 2: profile 0 takes the free vacancy 1, then profile 1,
    still linked to vacancy 0, replaces it there as well.  The replacement
    clears the link of the evicted profile 0 but not the link that vacancy 0
    holds to profile 1. *)

(** C3 at the failing input: at the end of round 2 vacancy 0 still points
    to profile 1, whose own link now points to vacancy 1. *)
Theorem contested_links_asymmetric :
  rounds 2 contested = Ret tt (state_of (rounds 2 contested))
  /\ matches (state_of (rounds 2 contested))
     = ([None; Some 1], [Some 1; Some 1]).
Proof. split; vm_compute; reflexivity. Qed.

(** C2 at the failing input: [getMatches] returns profile [(3, 4)] paired
    with both vacancies. *)
Theorem contested_profile_matched_twice :
  exists out : list (item * item),
    result_of (getMatches 3 contested) = Some (inl out)
    /\ out = [((4, 1), (3, 4)); ((4, 3), (3, 4))]
    /\ NoDup (map fst out)
    /\ ~ NoDup (map snd out)
    /\ matches (state_after contested (getMatches 3 contested))
       = ([None; Some 1], [Some 1; Some 1]).
Proof.
  exists [((4, 1), (3, 4)); ((4, 3), (3, 4))].
  split; [vm_compute; reflexivity|]. split; [reflexivity|]. split; [|split].
  - cbn. apply NoDup_cons_2; [|apply NoDup_cons_2; [|apply NoDup_nil_2]].
    + intros H. apply list_elem_of_In in H. cbn in H. intuition discriminate.
    + intros H. apply list_elem_of_In in H. cbn in H. done.
  - cbn. intros H. inversion H as [|x l Hnotin _]; subst.
    apply Hnotin. by left.
  - vm_compute. reflexivity.
Qed.

(** ** C4: a matched profile proposing to an unmatched vacancy *)

(** C4 as stated fails: in [after_first_round] profile 0 holds a match and
    proposes to the unmatched vacancy 1, and the record of predicate
    invocations does not grow. *)
Lemma matched_proposer_free_vacancy_no_call :
  ~ (forall (m : Matcher item) (i : nat) (p cv : MatchContainer item) (held : nat),
       wrappedProfiles m !! i = Some p ->
       match_ p = Some held ->
       currentCandidate p < length (candidates p) ->
       wrappedVacancies m !! currentCandidate p = Some cv ->
       match_ cv = None ->
       calls (state_of (propose i m)) <> calls m).
Proof.
  intros H.
  apply (H after_first_round 0
           {| obj := (1, 2); match_ := Some 0; currentCandidate := 1;
              candidates := [(2, 1); (9, 9)] |}
           {| obj := (9, 9); match_ := None; currentCandidate := 0;
              candidates := [(1, 2)] |}
           0);
    vm_compute; reflexivity.
Qed.

(** The same proposal as an instance of [propose_predicate_use]: no call,
    [done] false, no link changed. *)
Lemma propose_predicate_use_witness :
  let p := {| obj := (1, 2); match_ := Some 0; currentCandidate := 1;
              candidates := [(2, 1); (9, 9)] |} in
  let cv := {| obj := (9, 9); match_ := None; currentCandidate := 0;
               candidates := [(1, 2)] |} in
  calls (state_of (propose 0 after_first_round)) = calls after_first_round
  /\ done (state_of (propose 0 after_first_round)) = false
  /\ matches (state_of (propose 0 after_first_round)) = matches after_first_round.
Proof.
  intros p cv.
  assert (Hp : wrappedProfiles after_first_round !! 0 = Some p)
    by (vm_compute; reflexivity).
  assert (Hlt : currentCandidate p < length (candidates p)) by (cbn; lia).
  assert (Hcv : wrappedVacancies after_first_round !! currentCandidate p = Some cv)
    by (vm_compute; reflexivity).
  destruct (propose_predicate_use 0 after_first_round p cv Hp Hlt Hcv)
    as [Hfree _].
  destruct (Hfree eq_refl) as (Hcalls & Hdone & _ & Hheld).
  destruct (Hheld ltac:(discriminate)) as [Hrun Hsame].
  split; [exact Hcalls|]. split; [exact Hdone|].
  rewrite Hrun. exact Hsame.
Defined.

(** ** C5: a round that changes no link and is still not converged *)

(** C5 as stated fails: the second round of [one_profile_two_vacancies]
    changes no link (the matched profile proposes to the free vacancy 1 and
    is ignored) and yet ends with [done] false. *)
Lemma round_unchanged_yet_not_converged :
  ~ (forall m m' : Matcher item,
       round m = Ret tt m' ->
       (done m' = true <-> matches m' = matches m)).
Proof.
  intros H.
  destruct (H after_first_round (state_of (round after_first_round))) as [_ Hback];
    [vm_compute; reflexivity|].
  assert (Hdone : done (state_of (round after_first_round)) = false)
    by (vm_compute; reflexivity).
  rewrite Hback in Hdone; [discriminate|vm_compute; reflexivity].
Qed.

(** After the first round of "simpleMatch" the next round ends with [done]
    true, and [round_converged_no_change] applies to it. *)
Lemma round_converged_no_change_witness :
  let m := state_of (round simpleMatch) in
  round m = Ret tt (with_done true m)
  /\ matches (with_done true m) = matches m.
Proof.
  intros m.
  assert (Hround : round m = Ret tt (with_done true m)) by (vm_compute; reflexivity).
  split; [exact Hround|].
  exact (round_converged_no_change m (with_done true m) Hround eq_refl).
Defined.

(** ** C8: the always-true predicate with a bound above the number of
    vacancies *)

(** C8 as stated fails: one profile, one vacancy, the always-true predicate
    and bound 2.  The second round is idle, the loop ends with [done] true
    and the pair is returned; no amount of fuel makes the run throw. *)
Lemma always_true_bound_2_returns :
  ~ (forall (profiles vacancies : list item) (cap : Z),
       profiles <> [] -> vacancies <> [] -> (0 < cap)%Z ->
       exists fuel m',
         getMatches fuel (new_Matcher profiles vacancies always_true cap)
         = Some (Throw MaxLoopCountReached m')).
Proof.
  intros H.
  destruct (H [(1, 2)] [(2, 1)] 2%Z) as (fuel & m' & Hget); try done.
  change (new_Matcher _ _ _ _) with (single_pair 2) in Hget.
  assert (Hret : result_of (getMatches 2 (single_pair 2))
                 = Some (inl [((2, 1), (1, 2))])) by (vm_compute; reflexivity).
  destruct (le_ge_dec fuel 2) as [Hle|Hge].
  - rewrite (getMatches_fuel_mono _ _ _ _ Hget Hle) in Hret. discriminate Hret.
  - destruct (getMatches 2 (single_pair 2)) as [o|] eqn:H2; [|discriminate Hret].
    rewrite (getMatches_fuel_mono _ _ _ _ H2 Hge) in Hget.
    injection Hget as ->. discriminate Hret.
Qed.

(** One profile, two vacancies, bound 2: an instance of
    [always_true_throws_iff] in which the bound is hit. *)
Lemma always_true_throws_iff_witness :
  exists o,
    getMatches 3 (new_Matcher [(1, 2)] [(2, 1); (9, 9)] always_true 2) = Some o
    /\ ((exists m', o = Throw MaxLoopCountReached m')
        <-> (2 <= Z.of_nat (length [(2, 1); (9, 9)]))%Z)
    /\ ((Z.of_nat (length [(2, 1); (9, 9)]) < 2)%Z -> exists out m', o = Ret out m').
Proof.
  apply (always_true_throws_iff [(1, 2)] [(2, 1); (9, 9)] 2%Z 0);
    [discriminate | lia].
Defined.

(** ** C9: a call that threw does not stop the next call from running *)

(** C9 as stated fails: with bound 1 the first call on [single_pair 1]
    throws after one round; the second call runs the loop again, reaches the
    eviction pass and invokes the predicate there. *)
Lemma second_call_after_throw_reruns :
  ~ (forall (profiles vacancies : list item) prefers (cap : Z) (fuel : nat)
            (o1 o2 : outcome item (list (item * item))),
       getMatches fuel (new_Matcher profiles vacancies prefers cap) = Some o1 ->
       getMatches fuel (state_of o1) = Some o2 ->
       calls (state_of o2) = calls (state_of o1)).
Proof.
  intros H.
  assert (H1 : exists o1, getMatches 2 (single_pair 1) = Some o1).
  { destruct (getMatches 2 (single_pair 1)) eqn:E; [by eexists|].
    vm_compute in E. discriminate E. }
  destruct H1 as (o1 & H1).
  assert (H2 : exists o2, getMatches 2 (state_of o1) = Some o2).
  { destruct (getMatches 2 (state_of o1)) eqn:E; [by eexists|].
    revert E. replace o1 with
      (match getMatches 2 (single_pair 1) with Some o => o | None => o1 end)
      by (by rewrite H1).
    vm_compute. discriminate. }
  destruct H2 as (o2 & H2).
  specialize (H _ _ _ _ _ o1 o2 H1 H2).
  revert H.
  replace o2 with
    (match getMatches 2 (state_of o1) with Some o => o | None => o2 end)
    by (by rewrite H2).
  replace o1 with
    (match getMatches 2 (single_pair 1) with Some o => o | None => o1 end)
    by (by rewrite H1).
  vm_compute. discriminate.
Qed.

(** The "simpleMatch" test run returns a pair list, so
    [getMatches_idempotent] applies to the state it leaves behind. *)
Lemma getMatches_idempotent_witness :
  getMatches 2 simpleMatch
  = Some (Ret [((2, 1), (1, 2))] (state_after simpleMatch (getMatches 2 simpleMatch)))
  /\ done (state_after simpleMatch (getMatches 2 simpleMatch)) = true
  /\ forall fuel',
       getMatches fuel' (state_after simpleMatch (getMatches 2 simpleMatch))
       = Some (Ret [((2, 1), (1, 2))]
                   (state_after simpleMatch (getMatches 2 simpleMatch))).
Proof.
  assert (Hget : getMatches 2 simpleMatch
                 = Some (Ret [((2, 1), (1, 2))]
                          (state_after simpleMatch (getMatches 2 simpleMatch))))
    by (vm_compute; reflexivity).
  split; [exact Hget|].
  exact (getMatches_idempotent simpleMatch 2 [((2, 1), (1, 2))]
           (state_after simpleMatch (getMatches 2 simpleMatch)) Hget).
Defined.

(** * Further properties of the engine *)

Section EngineFacts.

Context {T : Type}.
Implicit Types (m : Matcher T).

(** ** Empty inputs *)

Lemma evict_unmatched_id i m (v : MatchContainer T) :
  wrappedVacancies m !! i = Some v -> match_ v = None -> evict i m = Ret tt m.
Proof.
  intros Hv Hm. unfold evict, bind, getVacancy. by rewrite Hv, Hm.
Qed.

Lemma collect_unmatched indices : forall (output : list (T * T)) m,
  (forall i, In i indices ->
     exists v, wrappedVacancies m !! i = Some v /\ match_ v = None) ->
  collect indices output m = Ret output m.
Proof.
  induction indices as [|k rest IH]; intros output m H; cbn [collect]; [done|].
  destruct (H k) as (v & Hv & Hm); [by left|].
  unfold bind, getVacancy. rewrite Hv, Hm. apply IH.
  intros i Hi. apply H. by right.
Qed.

(** A run on an engine that has not run yet, in which no profile has a
    candidate left and no vacancy holds a link: one idle round, nothing
    evicted, nothing collected, the predicate never invoked. *)
Lemma idle_run m fuel :
  done m = false ->
  (forall i p, wrappedProfiles m !! i = Some p ->
               length (candidates p) <= currentCandidate p) ->
  (forall i v, wrappedVacancies m !! i = Some v -> match_ v = None) ->
  getMatches (S fuel) m = Some (Ret [] (with_done true m)).
Proof.
  intros Hd Hex Hfree.
  assert (Hvac : forall i, In i (seq 0 (length (wrappedVacancies m))) ->
            exists v, wrappedVacancies m !! i = Some v /\ match_ v = None).
  { intros i Hi. apply in_seq in Hi as [_ Hi]. cbn in Hi.
    destruct (lookup_lt_is_Some_2 (wrappedVacancies m) i Hi) as [v Hv].
    exists v. split; [done|]. by eapply Hfree. }
  unfold getMatches, Matcher_match. rewrite Hd. cbn [negb].
  rewrite match_loop_continues by (done || lia).
  rewrite round_idle by exact Hex.
  rewrite match_loop_stops by (by left). cbn [with_done done negb].
  unfold evictUnmatching. rewrite forEach_idle.
  - unfold collectMatches. by rewrite collect_unmatched.
  - intros i Hi. destruct (Hvac i Hi) as (v & Hv & Hm).
    by apply (evict_unmatched_id i _ v).
Qed.

Lemma new_Matcher_vacancies_free (profiles vacancies : list T) prefers cap i v :
  wrappedVacancies (new_Matcher profiles vacancies prefers cap) !! i = Some v ->
  match_ v = None.
Proof.
  cbn. change (map ?f ?l) with (f <$> l).
  intros H. by apply list_lookup_fmap_Some in H as (x & -> & _).
Qed.

(** X1. With no profiles or with no vacancies, whatever the other list, the
    predicate and the loop bound are, the first [getMatches] returns the
    empty pair list after a single idle round, and the predicate is never
    invoked. *)
Theorem empty_side_no_pairs (items : list T)
    (prefers : T -> option T -> T -> bool) (cap : Z) (extra : nat) :
  (exists m', getMatches (S extra) (new_Matcher [] items prefers cap)
              = Some (Ret [] m')
              /\ calls m' = [] /\ done m' = true)
  /\ (exists m', getMatches (S extra) (new_Matcher items [] prefers cap)
                 = Some (Ret [] m')
                 /\ calls m' = [] /\ done m' = true).
Proof.
  split.
  - exists (with_done true (new_Matcher [] items prefers cap)).
    split; [|done]. apply idle_run; [done| |].
    + intros i p. by cbn.
    + intros i v. apply new_Matcher_vacancies_free.
  - exists (with_done true (new_Matcher items [] prefers cap)).
    split; [|done]. apply idle_run; [done| |].
    + intros i p. cbn. change (map ?f ?l) with (f <$> l).
      intros H. apply list_lookup_fmap_Some in H as (x & -> & _). cbn. lia.
    + intros i v. by cbn.
Qed.

(** ** Throwing depends on the sizes only *)

(** X2. Whether the first [getMatches] of a fresh engine throws does not
    depend on the predicate or on the items: it throws the max-loop-count
    error exactly when there is at least one profile and the bound is
    positive and at most the number of vacancies, and returns a pair list
    otherwise. *)
Theorem throws_iff_bound_too_low (profiles vacancies : list T)
    (prefers : T -> option T -> T -> bool) (cap : Z) (extra : nat) :
  exists o,
    getMatches (S (length vacancies) + extra)
      (new_Matcher profiles vacancies prefers cap) = Some o
    /\ ((exists m', o = Throw MaxLoopCountReached m')
        <-> profiles <> [] /\ (0 < cap <= Z.of_nat (length vacancies))%Z)
    /\ ((exists out m', o = Ret out m')
        <-> ~ (profiles <> [] /\ (0 < cap <= Z.of_nat (length vacancies))%Z)).
Proof.
  destruct (bound_too_low_dec profiles vacancies cap) as [Hlow|Hok].
  - destruct (fresh_throws profiles vacancies prefers cap
                (S (length vacancies) + extra) Hlow) as (m' & Hget & _); [lia|].
    exists (Throw MaxLoopCountReached m'). split; [exact Hget|]. split; split.
    + by intros _.
    + intros _. by exists m'.
    + by intros (? & ? & ?).
    + intros Hnot. by destruct Hnot.
  - destruct (fresh_returns profiles vacancies prefers cap
                (S (length vacancies) + extra) Hok) as (out & m' & Hget & _); [lia|].
    exists (Ret out m'). split; [exact Hget|]. split; split.
    + by intros (? & ?).
    + intros Hlow. by destruct Hok.
    + by intros _.
    + intros _. by exists out, m'.
Qed.

(** ** The number of rounds *)

(** X3. With at least one profile and a bound that is off (0 or less) or
    above the number of vacancies, the loop of a fresh engine runs exactly
    [length vacancies + 1] rounds, whatever the predicate answers: it ends
    with [done] true and with every profile cursor at the end of its
    candidate list. *)
Theorem loop_runs_all_rounds (profiles vacancies : list T)
    (prefers : T -> option T -> T -> bool) (cap : Z) (extra : nat) :
  profiles <> [] ->
  (cap <= 0 \/ Z.of_nat (length vacancies) < cap)%Z ->
  exists m1,
    match_loop (S (length vacancies) + extra) 0
      (new_Matcher profiles vacancies prefers cap)
    = Some (Ret (Z.of_nat (length vacancies) + 1)%Z m1)
    /\ done m1 = true
    /\ forall i p, wrappedProfiles m1 !! i = Some p ->
         currentCandidate p = length vacancies
         /\ length (candidates p) = length vacancies.
Proof.
  intros Hps Hcap.
  set (m0 := new_Matcher profiles vacancies prefers cap).
  assert (Hlen : length (wrappedVacancies m0) = length vacancies).
  { subst m0. cbn. by rewrite length_map. }
  destruct (match_loop_converges (length vacancies) 0 m0 0%Z
              (S (length vacancies) + extra))
    as (m1 & Hloop & Hd1 & (_ & Hcur & _)).
  { apply new_Matcher_lockstep. }
  { done. }
  { subst m0. cbn. rewrite length_map. destruct profiles; [done|cbn; lia]. }
  { lia. }
  { lia. }
  { subst m0. cbn. lia. }
  exists m1. rewrite Z.add_0_l in Hloop. split; [exact Hloop|].
  split; [exact Hd1|].
  pose proof (match_loop_frame _ _ _ _ Hloop) as Hfr.
  apply same_frame_length in Hfr as [_ Hlv]. cbn [state_of] in Hlv.
  intros i p Hp. destruct (Hcur i p Hp) as [Hl Hc]. lia.
Qed.

(** ** What the predicate is asked *)

Lemma lookup_In_map {A B} (f : A -> B) (l : list A) i x :
  l !! i = Some x -> In (f x) (map f l).
Proof.
  intros H. apply in_map, list_elem_of_In. by eapply list_elem_of_lookup_2.
Qed.

Lemma calls_extend_refl m : calls_extend m m.
Proof. split; [apply same_frame_refl|auto]. Qed.

Lemma calls_extend_trans m1 m2 m3 :
  calls_extend m1 m2 -> calls_extend m2 m3 -> calls_extend m1 m3.
Proof.
  intros [F12 H12] [F23 H23]. split; [by eapply same_frame_trans|].
  intros call Hc. destruct (H23 call Hc) as [Hin|Hon]; [by apply H12|].
  right. by rewrite <- (frame_pobj _ _ F12), <- (frame_vobj _ _ F12).
Qed.

Lemma calls_extend_silent m m' :
  same_frame m m' -> calls m' = calls m -> calls_extend m m'.
Proof. intros F E. split; [done|]. intros call. rewrite E. auto. Qed.

Lemma calls_extend_one m m' (v cm p : MatchContainer T) iv ip :
  same_frame m m' ->
  calls m' = calls m ++ [(obj v, Some (obj cm), obj p)] ->
  wrappedVacancies m !! iv = Some v ->
  In (obj cm) (map obj (wrappedProfiles m)) ->
  wrappedProfiles m !! ip = Some p ->
  calls_extend m m'.
Proof.
  intros F E Hv Hcm Hp. split; [done|]. intros call. rewrite E.
  intros Hin. apply in_app_or in Hin as [Hin|[<-|[]]]; [by left|right].
  split; [|split]; cbn.
  - by eapply lookup_In_map.
  - by eapply lookup_In_map.
  - by exists (obj cm).
Qed.

Lemma propose_calls_extend i m : calls_extend m (state_of (propose i m)).
Proof.
  pose proof (propose_frame i m) as F.
  destruct (propose_specP i m)
    as [ Hu | p0 H0 Hex | p0 H0 Hlt Hv | p0 cv H0 Hlt Hv Hcv Hp0
       | p0 cv held H0 Hlt Hv Hcv Hp0 | p0 cv j H0 Hlt Hv Hcv Hcm
       | p0 cv j cm H0 Hlt Hv Hcv Hcm Hpref | p0 cv j cm H0 Hlt Hv Hcv Hcm Hpref ];
    cbn [state_of] in *; try (by apply calls_extend_silent).
  - eapply (calls_extend_one _ _ cv cm p0); try done.
    rewrite <- (frame_pobj _ _ (frame_put_profile i p0 m H0)).
    by eapply lookup_In_map.
  - eapply (calls_extend_one _ _ cv cm p0); try done.
    rewrite <- (frame_pobj _ _ (frame_put_profile i p0 m H0)).
    by eapply lookup_In_map.
Qed.

Lemma evict_calls_extend i m : calls_extend m (state_of (evict i m)).
Proof.
  pose proof (evict_frame i m) as F.
  destruct (evict_specP i m) as [ Hu | v Hv Hm | v j Hv Hm Hmp
                                | v j mp Hv Hm Hmp Hpref
                                | v j mp Hv Hm Hmp Hpref ];
    cbn [state_of] in *; try (by apply calls_extend_silent).
  - eapply (calls_extend_one _ _ v mp mp); try done. by eapply lookup_In_map.
  - eapply (calls_extend_one _ _ v mp mp); try done. by eapply lookup_In_map.
Qed.

Lemma round_calls_extend m : calls_extend m (state_of (round m)).
Proof.
  unfold round, bind, setDone.
  eapply calls_extend_trans;
    [apply (calls_extend_silent m (with_done true m)); [apply frame_with_done|done]|].
  apply forEach_related;
    eauto using calls_extend_refl, calls_extend_trans, propose_calls_extend.
Qed.

Lemma evictUnmatching_calls_extend m :
  calls_extend m (state_of (evictUnmatching m)).
Proof.
  unfold evictUnmatching. apply forEach_related;
    eauto using calls_extend_refl, calls_extend_trans, evict_calls_extend.
Qed.

Lemma match_loop_calls_extend fuel : forall loopCount m o,
  match_loop fuel loopCount m = Some o -> calls_extend m (state_of o).
Proof.
  induction fuel as [|fuel IH]; intros lc m o; rewrite match_loop_unfold;
    destruct (negb (done m) && _); try discriminate;
    try (intros [= <-]; apply calls_extend_refl).
  pose proof (round_calls_extend m) as Hr.
  destruct (round m) as [[] m1|e m1]; cbn [state_of] in Hr.
  - intros H. eapply calls_extend_trans; [exact Hr|eapply IH, H].
  - by intros [= <-].
Qed.

Lemma collect_state indices : forall (output : list (T * T)) m,
  state_of (collect indices output m) = m.
Proof.
  induction indices as [|k rest IH]; intros output m; cbn [collect]; [done|].
  unfold bind at 1, getVacancy.
  destruct (wrappedVacancies m !! k) as [v|]; [|done].
  destruct (match_ v) as [j|]; [|apply IH].
  unfold bind, getProfile. destruct (wrappedProfiles m !! j); [apply IH|done].
Qed.

Lemma getMatches_calls_extend fuel m o :
  getMatches fuel m = Some o -> calls_extend m (state_of o).
Proof.
  unfold getMatches, Matcher_match, collectMatches.
  destruct (negb (done m)).
  - destruct (match_loop fuel 0 m) as [[lc m1|e m1]|] eqn:Hloop; try discriminate;
      apply match_loop_calls_extend in Hloop; cbn [state_of] in Hloop.
    + destruct (negb (done m1)); [by intros [= <-]|].
      pose proof (evictUnmatching_calls_extend m1) as Hev.
      destruct (evictUnmatching m1) as [[] m2|e m2]; cbn [state_of] in Hev;
        intros [= <-]; rewrite ?collect_state;
        by eapply calls_extend_trans.
    + by intros [= <-].
  - intros [= <-]. rewrite collect_state. apply calls_extend_refl.
Qed.

Lemma new_Matcher_items (profiles vacancies : list T) prefers cap :
  map obj (wrappedProfiles (new_Matcher profiles vacancies prefers cap)) = profiles
  /\ map obj (wrappedVacancies (new_Matcher profiles vacancies prefers cap))
     = vacancies.
Proof. cbn. rewrite !map_map. cbn. by rewrite !map_id. Qed.

(** X4. The engine never asks the predicate about a null current match:
    every invocation made by a [getMatches] call on a fresh engine (in the
    rounds and in the eviction pass, also when the call throws) has a
    vacancy item as first argument, a profile item as third argument, and a
    profile item, never null, as second argument. *)
Theorem predicate_never_asked_about_null (profiles vacancies : list T)
    (prefers : T -> option T -> T -> bool) (cap : Z) (fuel : nat)
    (o : outcome T (list (T * T))) :
  getMatches fuel (new_Matcher profiles vacancies prefers cap) = Some o ->
  forall call, In call (calls (state_of o)) -> call_on_items profiles vacancies call.
Proof.
  intros Hget call Hin.
  destruct (getMatches_calls_extend _ _ _ Hget) as [_ H].
  destruct (new_Matcher_items profiles vacancies prefers cap) as [Hp Hv].
  destruct (H call Hin) as [[]|Hon]. by rewrite Hp, Hv in Hon.
Qed.

(** ** Links held by profiles *)

Lemma reciprocated_put_profile i (p0 : MatchContainer T) m :
  wrappedProfiles m !! i = Some p0 ->
  reciprocated m -> reciprocated (put_profile i (snd (nextCandidate p0)) m).
Proof.
  intros H0 Hrec pi p vi Hp Hm. cbn in Hp |- *.
  rewrite list_lookup_insert in Hp. case_decide as Hi.
  - destruct Hi as [<- _]. injection Hp as <-.
    destruct (nextCandidate_fields p0) as (_ & Hmatch & _).
    rewrite Hmatch in Hm. exact (Hrec i p0 vi H0 Hm).
  - exact (Hrec pi p vi Hp Hm).
Qed.

Lemma reciprocated_unlink j m :
  reciprocated m -> reciprocated (set_profile_match j None m).
Proof.
  intros Hrec pi p vi Hp Hm. cbn in Hp |- *.
  apply lookup_alter_set_match in Hp as (y & Hy & _ & [[_ ->]|[_ Hnone]]).
  - exact (Hrec pi y vi Hy Hm).
  - congruence.
Qed.

Lemma reciprocated_link i c m (cv : MatchContainer T) :
  reciprocated m ->
  wrappedVacancies m !! c = Some cv ->
  (forall k q, k <> i -> wrappedProfiles m !! k = Some q -> match_ q <> Some c) ->
  reciprocated (set_profile_match i (Some c) (set_vacancy_match c (Some i) m)).
Proof.
  intros Hrec Hcv Hfree pi p vi Hp Hm. cbn in Hp |- *.
  apply lookup_alter_set_match in Hp as (y & Hy & _ & [[Hne ->]|[<- Hc]]).
  - destruct (Hrec pi y vi Hy Hm) as (v & Hv & Hvm).
    assert (vi <> c) by (intros ->; by apply (Hfree pi y)).
    exists v. by rewrite list_lookup_alter_ne.
  - assert (vi = c) as -> by congruence.
    exists (set_match (Some i) cv). by rewrite list_lookup_alter_eq, Hcv.
Qed.

Lemma reciprocated_drop k j m (v : MatchContainer T) :
  reciprocated m ->
  wrappedVacancies m !! k = Some v -> match_ v = Some j ->
  reciprocated (set_profile_match j None (set_vacancy_match k None m)).
Proof.
  intros Hrec Hv Hvm pi p vi Hp Hm. cbn in Hp |- *.
  apply lookup_alter_set_match in Hp as (y & Hy & _ & [[Hne ->]|[_ Hnone]]);
    [|congruence].
  destruct (Hrec pi y vi Hy Hm) as (v' & Hv' & Hvm').
  assert (vi <> k) by (intros ->; congruence).
  exists v'. by rewrite list_lookup_alter_ne.
Qed.

Lemma propose_reciprocated i m :
  reciprocated m -> reciprocated (state_of (propose i m)).
Proof.
  intros Hrec.
  destruct (propose_specP i m)
    as [ Hu | p0 H0 Hex | p0 H0 Hlt Hv | p0 cv H0 Hlt Hv Hcv Hp0
       | p0 cv held H0 Hlt Hv Hcv Hp0 | p0 cv j H0 Hlt Hv Hcv Hcm
       | p0 cv j cm H0 Hlt Hv Hcv Hcm Hpref | p0 cv j cm H0 Hlt Hv Hcv Hcm Hpref ];
    cbn [state_of]; try done;
    pose proof (reciprocated_put_profile i p0 m H0 Hrec) as Hput; try exact Hput.
  - apply (reciprocated_link i _ _ cv); [exact Hput|exact Hv|].
    intros k q Hk Hq Hqm.
    destruct (Hput k q _ Hq Hqm) as (v & Hv' & Hvm). cbn in Hv'. congruence.
  - apply (reciprocated_link i _ _ cv).
    + apply reciprocated_unlink. exact Hput.
    + exact Hv.
    + intros k q Hk Hq Hqm. cbn in Hq.
      apply lookup_alter_set_match in Hq as (y & Hy & _ & [[Hne ->]|[_ Hnone]]);
        [|congruence].
      destruct (Hput k y _ Hy Hqm) as (v & Hv' & Hvm). cbn in Hv'. congruence.
Qed.

Lemma evict_reciprocated i m :
  reciprocated m -> reciprocated (state_of (evict i m)).
Proof.
  intros Hrec.
  destruct (evict_specP i m) as [ Hu | v Hv Hm | v j Hv Hm Hmp
                                | v j mp Hv Hm Hmp Hpref
                                | v j mp Hv Hm Hmp Hpref ];
    cbn [state_of]; try done.
  by apply (reciprocated_drop i j _ v).
Qed.

Lemma forEach_reciprocated (callback : nat -> M T unit) indices m :
  (forall i a, reciprocated a -> reciprocated (state_of (callback i a))) ->
  reciprocated m -> reciprocated (state_of (forEach callback indices m)).
Proof.
  intros Hcb.
  apply (forEach_related (fun a b : Matcher T => reciprocated a -> reciprocated b));
    auto.
Qed.

Lemma match_loop_reciprocated fuel : forall loopCount m o,
  match_loop fuel loopCount m = Some o ->
  reciprocated m -> reciprocated (state_of o).
Proof.
  induction fuel as [|fuel IH]; intros lc m o; rewrite match_loop_unfold;
    destruct (negb (done m) && _); try discriminate;
    try (by intros [= <-]).
  assert (Hr : reciprocated m -> reciprocated (state_of (round m))).
  { intros Hrec. unfold round, bind, setDone.
    by apply forEach_reciprocated; [apply propose_reciprocated|]. }
  destruct (round m) as [[] m1|e m1]; cbn [state_of] in Hr.
  - intros H Hrec. eapply IH; [exact H|by apply Hr].
  - intros [= <-]. exact Hr.
Qed.

Lemma new_Matcher_reciprocated (profiles vacancies : list T) prefers cap :
  reciprocated (new_Matcher profiles vacancies prefers cap).
Proof.
  intros pi p vi Hp Hm. cbn in Hp. change (map ?f ?l) with (f <$> l) in Hp.
  by apply list_lookup_fmap_Some in Hp as (x & -> & _).
Qed.

(** X5. A link held by a profile is always answered: if every profile link
    is answered by its vacancy before a [getMatches] call (as in a fresh
    engine, where no profile holds a link), then in the state the call
    leaves behind, whether it returns or throws, every profile that holds
    vacancy [vi] is the match of vacancy [vi]; hence no two profiles hold
    the same vacancy. *)
Theorem profile_links_answered m (fuel : nat) (o : outcome T (list (T * T))) :
  reciprocated m ->
  getMatches fuel m = Some o ->
  reciprocated (state_of o)
  /\ forall pi pj (p q : MatchContainer T) vi,
       wrappedProfiles (state_of o) !! pi = Some p ->
       wrappedProfiles (state_of o) !! pj = Some q ->
       match_ p = Some vi -> match_ q = Some vi -> pi = pj.
Proof.
  intros Hrec Hget.
  assert (Hafter : reciprocated (state_of o)).
  { revert Hget. unfold getMatches, Matcher_match, collectMatches.
    destruct (negb (done m)).
    - destruct (match_loop fuel 0 m) as [[lc m1|e m1]|] eqn:Hloop; try discriminate;
        apply match_loop_reciprocated in Hloop; try exact Hrec;
        cbn [state_of] in Hloop.
      + destruct (negb (done m1)); [by intros [= <-]|].
        assert (Hev : reciprocated (state_of (evictUnmatching m1))).
        { by apply forEach_reciprocated; [apply evict_reciprocated|]. }
        destruct (evictUnmatching m1) as [[] m2|e m2]; cbn [state_of] in Hev;
          intros [= <-]; by rewrite ?collect_state.
      + by intros [= <-].
    - intros [= <-]. by rewrite collect_state. }
  split; [exact Hafter|].
  intros pi pj p q vi Hp Hq Hpm Hqm.
  destruct (Hafter pi p vi Hp Hpm) as (v & Hv & Hvm).
  destruct (Hafter pj q vi Hq Hqm) as (v' & Hv' & Hvm').
  congruence.
Qed.

(** ** The shape of the result *)

Lemma collect_sublist n : forall a (output : list (T * T)) m res m',
  a + n = length (wrappedVacancies m) ->
  collect (seq a n) output m = Ret res m' ->
  exists picked,
    res = output ++ picked
    /\ sublist (map fst picked) (map obj (drop a (wrappedVacancies m))).
Proof.
  induction n as [|n IH]; intros a output m res m' Hlen; cbn [seq collect].
  - unfold ret. intros [= <- <-]. exists []. rewrite app_nil_r.
    split; [done|apply sublist_nil_l].
  - unfold bind at 1, getVacancy.
    destruct (lookup_lt_is_Some_2 (wrappedVacancies m) a) as [v Hv]; [lia|].
    rewrite Hv, (drop_S _ _ _ Hv). cbn [map].
    destruct (match_ v) as [j|].
    + unfold bind at 1, getProfile.
      destruct (wrappedProfiles m !! j) as [p|]; [|discriminate].
      intros H. apply IH in H as (picked & -> & Hsub); [|lia].
      exists ((obj v, obj p) :: picked). rewrite <- app_assoc. split; [done|].
      cbn. by apply sublist_skip.
    + intros H. apply IH in H as (picked & -> & Hsub); [|lia].
      exists picked. split; [done|]. by apply sublist_cons.
Qed.

(** X6. The pair list returned by the first [getMatches] of a fresh engine
    lists vacancy items in the order of the vacancy list, each vacancy slot
    at most once (its first components form a subsequence of the vacancy
    list), has at most as many pairs as there are vacancies, and every second
    component is an item of the profile list. *)
Theorem result_follows_vacancy_order (profiles vacancies : list T)
    (prefers : T -> option T -> T -> bool) (cap : Z) (fuel : nat)
    (out : list (T * T)) m' :
  getMatches fuel (new_Matcher profiles vacancies prefers cap)
  = Some (Ret out m') ->
  sublist (map fst out) vacancies
  /\ length out <= length vacancies
  /\ forall vacancy profile, In (vacancy, profile) out -> In profile profiles.
Proof.
  set (m0 := new_Matcher profiles vacancies prefers cap). intros Hget.
  unfold getMatches in Hget. cbn [m0 new_Matcher done negb] in Hget. fold m0 in Hget.
  destruct (Matcher_match fuel m0) as [[[] m2|e m2]|] eqn:Hmatch; try discriminate.
  apply Matcher_match_frame in Hmatch. cbn [state_of] in Hmatch.
  destruct (new_Matcher_items profiles vacancies prefers cap) as [Hp Hv].
  fold m0 in Hp, Hv.
  injection Hget as Hget. unfold collectMatches in Hget.
  destruct (collect_sublist _ 0 [] m2 out m' eq_refl Hget) as (picked & -> & Hsub).
  rewrite drop_0 in Hsub. change ([] ++ picked) with picked in *.
  rewrite (frame_vobj _ _ Hmatch), Hv in Hsub.
  split; [exact Hsub|]. split.
  - apply sublist_length in Hsub. by rewrite length_map in Hsub.
  - intros v p Hin. apply collect_pairs in Hget as [_ Hpairs].
    destruct (Hpairs v p Hin) as [[]|(i & cv & j & mp & _ & _ & _ & Hmp & _ & ->)].
    rewrite <- Hp, <- (frame_pobj _ _ Hmatch). by eapply lookup_In_map.
Qed.

(** ** The eviction pass only removes links *)

Lemma only_cleared_refl (l : list (MatchContainer T)) : only_cleared l l.
Proof. split; [done|]. intros i a Ha. exists a. auto. Qed.

Lemma only_cleared_trans (l1 l2 l3 : list (MatchContainer T)) :
  only_cleared l1 l2 -> only_cleared l2 l3 -> only_cleared l1 l3.
Proof.
  intros [L12 H12] [L23 H23]. split; [congruence|].
  intros i a Ha. destruct (H23 i a Ha) as (b & Hb & Hab).
  destruct (H12 i b Hb) as (c & Hc & Hbc). exists c. split; [done|].
  destruct Hab as [-> | ->]; auto.
Qed.

Lemma only_cleared_alter (l : list (MatchContainer T)) i :
  only_cleared l (alter (set_match None) i l).
Proof.
  split; [apply length_alter|]. intros k a Ha.
  apply lookup_alter_set_match in Ha as (y & Hy & _ & [[_ ->]|[_ Hn]]);
    exists y; auto.
Qed.

Lemma evict_only_clears i m :
  only_cleared (wrappedProfiles m) (wrappedProfiles (state_of (evict i m)))
  /\ only_cleared (wrappedVacancies m) (wrappedVacancies (state_of (evict i m))).
Proof.
  destruct (evict_specP i m); cbn [state_of];
    try (split; apply only_cleared_refl).
  cbn. split; apply only_cleared_alter.
Qed.

(** X7. The eviction pass never creates or redirects a link: after
    [evictUnmatching], run on any state, every container on either side
    holds the link it held before or none, the arrays keep their lengths and
    the [done] flag is unchanged. *)
Theorem evictUnmatching_only_clears m :
  only_cleared (wrappedProfiles m) (wrappedProfiles (state_of (evictUnmatching m)))
  /\ only_cleared (wrappedVacancies m)
       (wrappedVacancies (state_of (evictUnmatching m)))
  /\ done (state_of (evictUnmatching m)) = done m.
Proof.
  rewrite evictUnmatching_done.
  enough (only_cleared (wrappedProfiles m)
            (wrappedProfiles (state_of (evictUnmatching m)))
          /\ only_cleared (wrappedVacancies m)
               (wrappedVacancies (state_of (evictUnmatching m)))) by tauto.
  unfold evictUnmatching.
  apply (forEach_related
           (fun a b : Matcher T =>
              only_cleared (wrappedProfiles a) (wrappedProfiles b)
              /\ only_cleared (wrappedVacancies a) (wrappedVacancies b))).
  - intros a. split; apply only_cleared_refl.
  - intros a b c [P1 V1] [P2 V2]. split; by eapply only_cleared_trans.
  - intros i a. apply evict_only_clears.
Qed.

(** ** Links after a number of rounds *)

(** X8. After [k] rounds on a fresh engine a vacancy holds a link only if
    its slot is below [k] (the cursors have passed it), and every link held
    by a vacancy is an index into the profile list. *)
Theorem vacancy_links_after_rounds (profiles vacancies : list T)
    (prefers : T -> option T -> T -> bool) (cap : Z) (k i j : nat)
    (v : MatchContainer T) :
  wrappedVacancies (state_of (rounds k (new_Matcher profiles vacancies prefers cap)))
    !! i = Some v ->
  match_ v = Some j ->
  j < length profiles /\ i < k.
Proof.
  intros Hv Hm. destruct profiles as [|p ps].
  - destruct k as [|k].
    + cbn in Hv. change (map ?f ?l) with (f <$> l) in Hv.
      by apply list_lookup_fmap_Some in Hv as (x & -> & _).
    + rewrite rounds_no_profiles in Hv by done. cbn in Hv.
      change (map ?f ?l) with (f <$> l) in Hv.
      by apply list_lookup_fmap_Some in Hv as (x & -> & _).
  - set (m0 := new_Matcher (p :: ps) vacancies prefers cap) in *.
    assert (Hnp : length (wrappedProfiles m0) = length (p :: ps))
      by (subst m0; cbn; by rewrite length_map).
    destruct (rounds_lockstep k 0 m0) as (m1 & Hrun & (_ & _ & Hlinks) & _ & _).
    { apply new_Matcher_lockstep. }
    { rewrite Hnp. cbn. lia. }
    pose proof (rounds_frame k m0) as Hfr. rewrite Hrun in Hfr, Hv.
    cbn [state_of] in Hfr, Hv. apply same_frame_length in Hfr as [Hlp _].
    destruct (Hlinks i v j Hv Hm) as [Hj Hi]. lia.
Qed.

(** ** Calling again *)

(** X9. A [getMatches] call that threw does not start over: the next call
    resets only the round counter and goes on from the cursors the failed
    call left.  For a fresh engine whose bound makes the first call throw,
    the second call throws again exactly when twice the bound is still at
    most the number of vacancies, and returns a pair list otherwise. *)
Theorem second_call_continues (profiles vacancies : list T)
    (prefers : T -> option T -> T -> bool) (cap : Z) (extra : nat) :
  profiles <> [] -> (0 < cap <= Z.of_nat (length vacancies))%Z ->
  let fuel := S (length vacancies) + extra in
  exists m1,
    getMatches fuel (new_Matcher profiles vacancies prefers cap)
    = Some (Throw MaxLoopCountReached m1)
    /\ (forall i p, wrappedProfiles m1 !! i = Some p ->
          currentCandidate p = Z.to_nat cap)
    /\ exists o2,
         getMatches fuel m1 = Some o2
         /\ ((exists m2, o2 = Throw MaxLoopCountReached m2)
             <-> (2 * cap <= Z.of_nat (length vacancies))%Z)
         /\ ((exists out m2, o2 = Ret out m2)
             <-> (Z.of_nat (length vacancies) < 2 * cap)%Z).
Proof.
  intros Hps Hcap fuel.
  set (m0 := new_Matcher profiles vacancies prefers cap).
  assert (Hlen0 : length (wrappedVacancies m0) = length vacancies)
    by (subst m0; cbn; by rewrite length_map).
  assert (Hps0 : wrappedProfiles m0 <> [])
    by (subst m0; cbn; by destruct profiles).
  destruct (Matcher_match_hits_bound 0 m0 fuel)
    as (m1 & Hmatch & Hd1 & Hls1); try done.
  { apply new_Matcher_lockstep. }
  { subst m0. cbn. lia. }
  { subst m0. cbn [new_Matcher maxLoopCount]. lia. }
  { subst fuel. lia. }
  cbn [plus] in Hls1. change (maxLoopCount m0) with cap in Hls1.
  pose proof (Matcher_match_frame _ _ _ Hmatch) as Hfr. cbn [state_of] in Hfr.
  destruct (same_frame_length _ _ Hfr) as [Hlp Hlv].
  pose proof (frame_maxLoop _ _ Hfr) as Hmax. change (maxLoopCount m0) with cap in Hmax.
  assert (Hps1 : wrappedProfiles m1 <> []).
  { destruct (wrappedProfiles m1), (wrappedProfiles m0); cbn in Hlp; done. }
  exists m1. split; [|split].
  { unfold getMatches. cbn [m0 new_Matcher done negb]. fold m0. by rewrite Hmatch. }
  { intros i p Hp. destruct Hls1 as (_ & Hcur & _). by destruct (Hcur i p Hp). }
  destruct (Z_le_gt_dec (2 * cap) (Z.of_nat (length vacancies))) as [Hagain|Hroom].
  - destruct (getMatches_hits_bound (Z.to_nat cap) m1 fuel) as (m2 & Hget & _);
      try done; try lia.
    exists (Throw MaxLoopCountReached m2). split; [exact Hget|]. split; split.
    + by intros _.
    + intros _. by exists m2.
    + by intros (? & ? & ?).
    + lia.
  - destruct (getMatches_converges (Z.to_nat cap) m1 fuel) as (out & m2 & Hget & _);
      try done; try lia.
    exists (Ret out m2). split; [exact Hget|]. split; split.
    + by intros (? & ?).
    + lia.
    + intros _. lia.
    + intros _. by exists out, m2.
Qed.

(** ** Running match() again *)

Lemma same_but_calls_refl m : same_but_calls m m.
Proof. by repeat split. Qed.

Lemma forEach_evict_endorsed_keeps indices : forall m0 m,
  same_but_calls m0 m ->
  (forall i, In i indices ->
     i < length (wrappedVacancies m0) /\ endorsed m0 i) ->
  exists m', forEach evict indices m = Ret tt m' /\ same_but_calls m0 m'.
Proof.
  induction indices as [|k rest IH]; intros m0 m Hsame Hall; cbn [forEach].
  - by exists m.
  - destruct (Hall k) as [Hk Hend]; [by left|].
    destruct Hsame as (Hp & Hv & Hpref & Hmax & Hd).
    assert (Hstep : exists m1, evict k m = Ret tt m1 /\ same_but_calls m0 m1).
    { destruct (evict_specP k m) as [ Hu | v Hkv Hm | v j Hkv Hm Hmp
                                    | v j mp Hkv Hm Hmp Hfalse
                                    | v j mp Hkv Hm Hmp Hfalse ].
      - apply lookup_ge_None in Hu. rewrite Hv in Hu. lia.
      - exists m. by repeat split.
      - rewrite Hv in Hkv. rewrite Hp in Hmp.
        destruct (Hend v j Hkv Hm) as (q & Hq & _). congruence.
      - eexists. split; [reflexivity|]. by repeat split.
      - rewrite Hv in Hkv. rewrite Hp in Hmp. rewrite Hpref in Hfalse.
        destruct (Hend v j Hkv Hm) as (q & Hq & Htrue). congruence. }
    destruct Hstep as (m1 & Hev & Hsame1).
    destruct (IH m0 m1 Hsame1) as (m' & Hrun & Hsame').
    { intros i Hi. apply Hall. by right. }
    exists m'. unfold bind. by rewrite Hev.
Qed.

(** X10. Once [match()] has completed on an engine, calling [match()] again
    runs no round and changes no cursor, link or flag: it only repeats the
    predicate calls of the eviction pass, all of which succeed again. *)
Theorem match_again_changes_nothing m (fuel : nat) m' :
  Matcher_match fuel m = Some (Ret tt m') ->
  forall fuel',
    exists m'', Matcher_match fuel' m' = Some (Ret tt m'')
                /\ same_but_calls m' m''.
Proof.
  unfold Matcher_match at 1. intros Hmatch fuel'.
  destruct (match_loop fuel 0 m) as [[lc m1|e m1]|]; try discriminate.
  destruct (done m1) eqn:Hd1; cbn [negb] in Hmatch; [|discriminate].
  injection Hmatch as Hev.
  pose proof (evictUnmatching_done m1) as Hd'. rewrite Hev, Hd1 in Hd'.
  cbn [state_of] in Hd'.
  pose proof (evictUnmatching_frame m1) as Hfr. rewrite Hev in Hfr.
  apply same_frame_length in Hfr as [_ Hlv]. cbn [state_of] in Hlv.
  destruct (forEach_evict_endorsed_keeps
              (seq 0 (length (wrappedVacancies m'))) m' m')
    as (m'' & Hrun & Hsame).
  { apply same_but_calls_refl. }
  { intros i Hi. split; [apply in_seq in Hi; lia|].
    eapply forEach_evict_endorsed; [exact Hev|by rewrite <- Hlv]. }
  exists m''. unfold Matcher_match.
  rewrite match_loop_stops by (by left). rewrite Hd'. cbn [negb].
  unfold evictUnmatching. by rewrite Hrun.
Qed.

(** ** What a call leaves untouched *)

(** X11. A [getMatches] call, whether it returns or throws, never resizes
    the two container arrays and never writes a wrapped item, a candidate
    list, a vacancy cursor, the predicate or the loop bound: only profile
    cursors, links and the [done] flag change. *)
Theorem getMatches_writes_only_cursors_and_links m (fuel : nat)
    (o : outcome T (list (T * T))) :
  getMatches fuel m = Some o ->
  length (wrappedProfiles (state_of o)) = length (wrappedProfiles m)
  /\ length (wrappedVacancies (state_of o)) = length (wrappedVacancies m)
  /\ map obj (wrappedProfiles (state_of o)) = map obj (wrappedProfiles m)
  /\ map obj (wrappedVacancies (state_of o)) = map obj (wrappedVacancies m)
  /\ map candidates (wrappedProfiles (state_of o))
     = map candidates (wrappedProfiles m)
  /\ map candidates (wrappedVacancies (state_of o))
     = map candidates (wrappedVacancies m)
  /\ map currentCandidate (wrappedVacancies (state_of o))
     = map currentCandidate (wrappedVacancies m)
  /\ vacancyPrefersProfile (state_of o) = vacancyPrefersProfile m
  /\ maxLoopCount (state_of o) = maxLoopCount m.
Proof.
  intros Hget. destruct (getMatches_calls_extend _ _ _ Hget) as [Hfr _].
  destruct (same_frame_length _ _ Hfr) as [Hlp Hlv].
  destruct Hfr. by repeat split.
Qed.

(** ** How often the predicate is asked *)

Lemma sum_list_with_insert {A} (f : A -> nat) (l : list A) i x y :
  l !! i = Some x ->
  sum_list_with f (<[i:=y]> l) + f x = sum_list_with f l + f y.
Proof.
  revert i. induction l as [|z l IH]; intros [|i] H; simpl in *; try done.
  - injection H as ->. lia.
  - specialize (IH i H). lia.
Qed.

Lemma sum_list_with_alter_same {A} (f : A -> nat) (g : A -> A) (l : list A) i :
  (forall x, f (g x) = f x) ->
  sum_list_with f (alter g i l) = sum_list_with f l.
Proof.
  intros Hfg. revert i. induction l as [|z l IH]; intros [|i]; simpl; try done.
  - by rewrite Hfg.
  - f_equal. apply IH.
Qed.

Lemma work_set_profile_match i w m : work (set_profile_match i w m) = work m.
Proof. unfold work. cbn. by rewrite sum_list_with_alter_same. Qed.

Lemma work_set_vacancy_match i w m : work (set_vacancy_match i w m) = work m.
Proof. reflexivity. Qed.

Lemma work_with_done b m : work (with_done b m) = work m.
Proof. reflexivity. Qed.

Lemma work_with_call call m : work (with_call call m) = S (work m).
Proof. unfold work. cbn. rewrite length_app. cbn. lia. Qed.

Lemma work_put_profile i (p0 : MatchContainer T) m :
  wrappedProfiles m !! i = Some p0 ->
  currentCandidate p0 < length (candidates p0) ->
  S (work (put_profile i (snd (nextCandidate p0)) m)) = work m.
Proof.
  intros H0 Hlt. unfold work. cbn.
  pose proof (sum_list_with_insert proposals_left (wrappedProfiles m) i p0
                (snd (nextCandidate p0)) H0) as Hsum.
  rewrite nextCandidate_advance in Hsum |- * by exact Hlt.
  cbn [snd] in Hsum |- *.
  set (after := sum_list_with proposals_left (<[i:=_]> (wrappedProfiles m))) in *.
  set (before := sum_list_with proposals_left (wrappedProfiles m)) in *.
  unfold proposals_left in Hsum. cbn in Hsum. lia.
Qed.

Ltac work_steps :=
  repeat first
    [ rewrite work_set_profile_match | rewrite work_set_vacancy_match
    | rewrite work_with_done | rewrite work_with_call ].

Lemma propose_work i m : work (state_of (propose i m)) <= work m.
Proof.
  destruct (propose_specP i m)
    as [ Hu | p0 H0 Hex | p0 H0 Hlt Hv | p0 cv H0 Hlt Hv Hcv Hp0
       | p0 cv held H0 Hlt Hv Hcv Hp0 | p0 cv j H0 Hlt Hv Hcv Hcm
       | p0 cv j cm H0 Hlt Hv Hcv Hcm Hpref | p0 cv j cm H0 Hlt Hv Hcv Hcm Hpref ];
    cbn [state_of]; try done;
    pose proof (work_put_profile i p0 m H0 Hlt) as Hput;
    work_steps; lia.
Qed.

Lemma evict_work i m : work (state_of (evict i m)) <= S (work m).
Proof.
  destruct (evict_specP i m); cbn [state_of]; work_steps; lia.
Qed.

Lemma forEach_evict_work indices : forall m,
  work (state_of (forEach evict indices m)) <= work m + length indices.
Proof.
  induction indices as [|k rest IH]; intros m; cbn [forEach length].
  - cbn. lia.
  - unfold bind. pose proof (evict_work k m) as Hk.
    destruct (evict k m) as [[] m1|e m1]; cbn [state_of] in *.
    + specialize (IH m1). lia.
    + lia.
Qed.

Lemma round_work m : work (state_of (round m)) <= work m.
Proof.
  unfold round, bind, setDone.
  change (work m) with (work (with_done true m)).
  apply (forEach_related (fun a b : Matcher T => work b <= work a)); auto.
  - intros a b c ? ?. lia.
  - intros i a. apply propose_work.
Qed.

Lemma match_loop_work fuel : forall loopCount m o,
  match_loop fuel loopCount m = Some o -> work (state_of o) <= work m.
Proof.
  induction fuel as [|fuel IH]; intros lc m o; rewrite match_loop_unfold;
    destruct (negb (done m) && _); try discriminate;
    try (by intros [= <-]).
  pose proof (round_work m) as Hr.
  destruct (round m) as [[] m1|e m1]; cbn [state_of] in Hr.
  - intros H. specialize (IH _ _ _ H). lia.
  - by intros [= <-].
Qed.

Lemma new_Matcher_work (profiles vacancies : list T) prefers cap :
  work (new_Matcher profiles vacancies prefers cap)
  = length profiles * length vacancies.
Proof.
  unfold work. cbn. induction profiles as [|p ps IH]; cbn; [done|].
  rewrite IH. unfold proposals_left. cbn. lia.
Qed.

(** X12. The predicate is asked at most once per profile and vacancy in the
    rounds and at most once per vacancy in the eviction pass: the first
    [getMatches] of a fresh engine, whether it returns or throws, makes at
    most [length profiles * length vacancies + length vacancies]
    invocations. *)
Theorem predicate_calls_bounded (profiles vacancies : list T)
    (prefers : T -> option T -> T -> bool) (cap : Z) (fuel : nat)
    (o : outcome T (list (T * T))) :
  getMatches fuel (new_Matcher profiles vacancies prefers cap) = Some o ->
  length (calls (state_of o))
  <= length profiles * length vacancies + length vacancies.
Proof.
  set (m0 := new_Matcher profiles vacancies prefers cap). intros Hget.
  enough (work (state_of o) <= work m0 + length (wrappedVacancies m0)) as Hw.
  { subst m0. rewrite new_Matcher_work in Hw. cbn in Hw.
    rewrite length_map in Hw. unfold work in Hw. lia. }
  revert Hget. unfold getMatches, Matcher_match, collectMatches.
  destruct (negb (done m0)).
  - destruct (match_loop fuel 0 m0) as [[lc m1|e m1]|] eqn:Hloop; try discriminate.
    + pose proof (match_loop_work _ _ _ _ Hloop) as Hw1.
      pose proof (match_loop_frame _ _ _ _ Hloop) as Hfr.
      apply same_frame_length in Hfr as [_ Hlv]. cbn [state_of] in Hw1, Hlv.
      destruct (negb (done m1)); [intros [= <-]; cbn [state_of]; lia|].
      pose proof (forEach_evict_work (seq 0 (length (wrappedVacancies m1))) m1)
        as Hev.
      rewrite length_seq in Hev. unfold evictUnmatching.
      destruct (forEach evict _ m1) as [[] m2|e m2]; cbn [state_of] in Hev;
        intros [= <-]; rewrite ?collect_state; cbn [state_of]; lia.
    + pose proof (match_loop_work _ _ _ _ Hloop) as Hw1. cbn [state_of] in Hw1.
      intros [= <-]. cbn [state_of]. lia.
  - intros [= <-]. rewrite collect_state. lia.
Qed.

End EngineFacts.

(** ** Instances of the further properties *)

(** The "multimatch" inputs with bound 10, above the three vacancies:
    [loop_runs_all_rounds] gives four rounds. *)
Lemma loop_runs_all_rounds_witness :
  exists m1,
    match_loop 4 0 multimatch = Some (Ret 4%Z m1)
    /\ done m1 = true
    /\ forall i p, wrappedProfiles m1 !! i = Some p ->
         currentCandidate p = 3 /\ length (candidates p) = 3.
Proof.
  apply (loop_runs_all_rounds [(1, 2); (3, 4); (5, 6)] [(2, 1); (4, 3); (7, 8)]
           prefers_complement 10%Z 0); [discriminate | cbn; lia].
Defined.

(** The invocations recorded by the [contested] run are all on items, with
    a profile as current match. *)
Lemma predicate_never_asked_about_null_witness :
  let o := outcome_after (Throw TypeError contested) (getMatches 3 contested) in
  getMatches 3 contested = Some o
  /\ length (calls (state_of o)) = 4
  /\ forall call, In call (calls (state_of o)) ->
       call_on_items [(1, 2); (3, 4)] [(4, 1); (4, 3)] call.
Proof.
  intros o.
  assert (Hget : getMatches 3 contested = Some o) by (vm_compute; reflexivity).
  split; [exact Hget|]. split; [vm_compute; reflexivity|].
  exact (predicate_never_asked_about_null [(1, 2); (3, 4)] [(4, 1); (4, 3)]
           prefers_complement 0%Z 3 o Hget).
Defined.

(** In the state the [contested] run leaves behind, where vacancy 0 holds a
    stale link, every link held by a profile is still answered. *)
Lemma profile_links_answered_witness :
  let o := outcome_after (Throw TypeError contested) (getMatches 3 contested) in
  reciprocated contested
  /\ getMatches 3 contested = Some o
  /\ reciprocated (state_of o).
Proof.
  intros o.
  assert (Hrec : reciprocated contested) by apply new_Matcher_reciprocated.
  assert (Hget : getMatches 3 contested = Some o) by (vm_compute; reflexivity).
  split; [exact Hrec|]. split; [exact Hget|].
  exact (proj1 (profile_links_answered contested 3 o Hrec Hget)).
Defined.

(** The two pairs of the "multimatch" run follow the vacancy order. *)
Lemma result_follows_vacancy_order_witness :
  getMatches 4 multimatch
  = Some (Ret [((2, 1), (1, 2)); ((4, 3), (3, 4))]
              (state_after multimatch (getMatches 4 multimatch)))
  /\ sublist [(2, 1); (4, 3)] [(2, 1); (4, 3); (7, 8)].
Proof.
  assert (Hget : getMatches 4 multimatch
                 = Some (Ret [((2, 1), (1, 2)); ((4, 3), (3, 4))]
                          (state_after multimatch (getMatches 4 multimatch))))
    by (vm_compute; reflexivity).
  split; [exact Hget|].
  exact (proj1 (result_follows_vacancy_order
                  [(1, 2); (3, 4); (5, 6)] [(2, 1); (4, 3); (7, 8)]
                  prefers_complement 10%Z 4 _ _ Hget)).
Defined.

(** After two rounds of [contested] vacancy 0 holds a link to profile 1. *)
Lemma vacancy_links_after_rounds_witness :
  wrappedVacancies (state_of (rounds 2 contested)) !! 0
  = Some {| obj := (4, 1); match_ := Some 1; currentCandidate := 0;
            candidates := [(1, 2); (3, 4)] |}
  /\ 1 < length [(1, 2); (3, 4)] /\ 0 < 2.
Proof.
  assert (Hv : wrappedVacancies (state_of (rounds 2 contested)) !! 0
               = Some {| obj := (4, 1); match_ := Some 1; currentCandidate := 0;
                         candidates := [(1, 2); (3, 4)] |})
    by (vm_compute; reflexivity).
  split; [exact Hv|].
  exact (vacancy_links_after_rounds [(1, 2); (3, 4)] [(4, 1); (4, 3)]
           prefers_complement 0%Z 2 0 1 _ Hv eq_refl).
Defined.

(** Three profiles, five vacancies, bound 2: the first call throws after two
    rounds, and so does the second, since [2 * 2 <= 5]. *)
Lemma second_call_continues_witness :
  exists m1,
    getMatches 6 (three_by_five 2) = Some (Throw MaxLoopCountReached m1)
    /\ (forall i p, wrappedProfiles m1 !! i = Some p -> currentCandidate p = 2)
    /\ exists o2,
         getMatches 6 m1 = Some o2
         /\ ((exists m2, o2 = Throw MaxLoopCountReached m2) <-> (2 * 2 <= 5)%Z)
         /\ ((exists out m2, o2 = Ret out m2) <-> (5 < 2 * 2)%Z).
Proof.
  apply (second_call_continues [(1, 2); (3, 4); (5, 6)]
           [(2, 1); (4, 3); (7, 8); (4, 9); (6, 5)] prefers_complement 2%Z 0);
    [discriminate | cbn; lia].
Defined.

(** [match()] on the "simpleMatch" engine completes, so a second [match()]
    changes nothing but the record of invocations. *)
Lemma match_again_changes_nothing_witness :
  let m' := state_after simpleMatch (Matcher_match 2 simpleMatch) in
  Matcher_match 2 simpleMatch = Some (Ret tt m')
  /\ forall fuel',
       exists m'', Matcher_match fuel' m' = Some (Ret tt m'')
                   /\ same_but_calls m' m''.
Proof.
  intros m'.
  assert (Hmatch : Matcher_match 2 simpleMatch = Some (Ret tt m'))
    by (vm_compute; reflexivity).
  split; [exact Hmatch|].
  exact (match_again_changes_nothing simpleMatch 2 m' Hmatch).
Defined.

(** The [contested] run leaves the arrays, items and candidate lists as the
    constructor built them. *)
Lemma getMatches_writes_only_cursors_and_links_witness :
  let o := outcome_after (Throw TypeError contested) (getMatches 3 contested) in
  getMatches 3 contested = Some o
  /\ map obj (wrappedProfiles (state_of o)) = [(1, 2); (3, 4)]
  /\ map obj (wrappedVacancies (state_of o)) = [(4, 1); (4, 3)].
Proof.
  intros o.
  assert (Hget : getMatches 3 contested = Some o) by (vm_compute; reflexivity).
  split; [exact Hget|].
  destruct (getMatches_writes_only_cursors_and_links contested 3 o Hget)
    as (_ & _ & Hp & Hv & _).
  split; [exact Hp | exact Hv].
Defined.

(** The [contested] run asks the predicate four times, within the bound
    [2 * 2 + 2]. *)
Lemma predicate_calls_bounded_witness :
  let o := outcome_after (Throw TypeError contested) (getMatches 3 contested) in
  getMatches 3 contested = Some o
  /\ length (calls (state_of o)) <= 2 * 2 + 2.
Proof.
  intros o.
  assert (Hget : getMatches 3 contested = Some o) by (vm_compute; reflexivity).
  split; [exact Hget|].
  exact (predicate_calls_bounded [(1, 2); (3, 4)] [(4, 1); (4, 3)]
           prefers_complement 0%Z 3 o Hget).
Defined.
